(** * readwren: checkpoint store, turn-gated interview loop, coverage analyzer

    A shallow embedding of
      - [src/agents/redis_checkpointer.py]  (class [RedisCheckpointSaver]),
      - [src/tools/profile_tools.py]        (class [ConversationAnalyzerTool]),
      - [cli_interview.py]                  (the main conversation loop),
    together with a model of the two external collaborators the checkpointer
    talks to: the Redis server (SETEX / GET / KEYS) and [pickle].

    Strings are byte strings and [str.lower] acts on the ASCII letters. An
    entry keeps the time to live it was written with; the passing of time
    is not modelled. The analyzer's score is a multiple of 1/4, which a
    float holds exactly, so rationals stand for the floats. *)

From Stdlib Require Import Ascii String ZArith QArith Qround List Lia.
From stdpp Require Import gmap strings list fin_maps.

Local Open Scope Z_scope.

(** Python [bytes]. *)
Abbreviation bytes := (list Byte.byte).

(** ** Python string helpers *)

Module PyStr.

(** [sep.join(parts)] *)
Definition join (sep : string) (parts : list string) : string :=
  String.concat sep parts.

(** [s.startswith(p)] *)
Fixpoint startswith (p s : string) : bool :=
  match p, s with
  | EmptyString, _ => true
  | String a p', String b s' => Ascii.eqb a b && startswith p' s'
  | String _ _, EmptyString => false
  end.

(** [k in s] on strings: [k] occurs in [s] as a contiguous substring. *)
Fixpoint contains (k s : string) : bool :=
  startswith k s ||
  match s with
  | EmptyString => false
  | String _ s' => contains k s'
  end.

(** [s.endswith(p)] *)
Fixpoint endswith (p s : string) : bool :=
  String.eqb p s ||
  match s with
  | EmptyString => false
  | String _ s' => endswith p s'
  end.

(** One character of [str.lower()], on the ASCII range. *)
Definition lower_ascii (c : ascii) : ascii :=
  let n := nat_of_ascii c in
  if (65 <=? n)%nat && (n <=? 90)%nat then ascii_of_nat (n + 32) else c.

(** [s.lower()] *)
Fixpoint lower (s : string) : string :=
  match s with
  | EmptyString => EmptyString
  | String c s' => String (lower_ascii c) (lower s')
  end.

(** Truthiness of a string: [if s:]. *)
Definition truthy (s : string) : bool :=
  match s with EmptyString => false | _ => true end.

(** [c in s] for a single character. *)
Fixpoint has_char (c : ascii) (s : string) : bool :=
  match s with
  | EmptyString => false
  | String a s' => Ascii.eqb a c || has_char c s'
  end.

(** [c.isspace()] on the ASCII range: tab to carriage return, the four
    separators 28 to 31, and the space. *)
Definition is_space (c : ascii) : bool :=
  let n := nat_of_ascii c in
  ((9 <=? n)%nat && (n <=? 13)%nat) || ((28 <=? n)%nat && (n <=? 32)%nat).

(** [s.lstrip()] *)
Fixpoint lstrip (s : string) : string :=
  match s with
  | EmptyString => EmptyString
  | String c s' => if is_space c then lstrip s' else s
  end.

(** [s.rstrip()] *)
Fixpoint rstrip (s : string) : string :=
  match s with
  | EmptyString => EmptyString
  | String c s' =>
      match rstrip s' with
      | EmptyString => if is_space c then EmptyString else String c EmptyString
      | r => String c r
      end
  end.

(** [s.strip()] *)
Definition strip (s : string) : string := lstrip (rstrip s).

(** [s[:n]] for a count [n] of characters. *)
Fixpoint take (n : nat) (s : string) : string :=
  match n, s with
  | S n', String c s' => String c (take n' s')
  | _, _ => EmptyString
  end.

(** [s[:n]] for any integer [n]: a negative [n] counts from the end. *)
Definition slice_to (n : Z) (s : string) : string :=
  if 0 <=? n then take (Z.to_nat n) s
  else take (String.length s - Z.to_nat (- n)) s.

End PyStr.

(** ** The Redis server, as far as the checkpointer uses it *)

Module Redis.

(** A stored value with the expiry it was written with ([SETEX key seconds value]). *)
Record entry := Entry { e_ttl : Z; e_value : bytes }.

(** The keyspace. *)
Abbreviation db := (gmap string entry).

(** [SETEX key seconds value]: set the value and its time to live, overwriting. *)
Definition setex (key : string) (seconds : Z) (value : bytes) (d : db) : db :=
  <[key := Entry seconds value]> d.

(** [GET key]: the value, or [None] for a missing key. *)
Definition get (key : string) (d : db) : option bytes :=
  e_value <$> d !! key.

(** Glob-style patterns of [KEYS]: [*], [?], [[...]] classes and [\] escapes. *)
Inductive glob_tok :=
| GStar
| GAny
| GLit (c : ascii)
| GClass (neg : bool) (ranges : list (ascii * ascii)).

Inductive glob_mode :=
| GOut
| GIn (neg : bool) (acc : list (ascii * ascii)).

Definition mk_range (a b : ascii) : ascii * ascii :=
  if (nat_of_ascii a <=? nat_of_ascii b)%nat then (a, b) else (b, a).

Fixpoint glob_parse (m : glob_mode) (p : string) : list glob_tok :=
  match m with
  | GOut =>
      match p with
      | EmptyString => []
      | String c p' =>
          if Ascii.eqb c "*" then GStar :: glob_parse GOut p'
          else if Ascii.eqb c "?" then GAny :: glob_parse GOut p'
          else if Ascii.eqb c "[" then
            match p' with
            | String c2 p'' =>
                if Ascii.eqb c2 "^" then glob_parse (GIn true []) p''
                else glob_parse (GIn false []) p'
            | EmptyString => glob_parse (GIn false []) p'
            end
          else if Ascii.eqb c "\" then
            match p' with
            | String c2 p'' => GLit c2 :: glob_parse GOut p''
            | EmptyString => [GLit c]
            end
          else GLit c :: glob_parse GOut p'
      end
  | GIn neg acc =>
      match p with
      | EmptyString => [GClass neg acc]
      | String c p' =>
          match p' with
          | String c2 p'' =>
              if Ascii.eqb c "\" then glob_parse (GIn neg ((c2, c2) :: acc)) p''
              else if Ascii.eqb c "]" then GClass neg acc :: glob_parse GOut p'
              else match p'' with
                   | String c3 p''' =>
                       if Ascii.eqb c2 "-"
                       then glob_parse (GIn neg (mk_range c c3 :: acc)) p'''
                       else glob_parse (GIn neg ((c, c) :: acc)) p'
                   | EmptyString => glob_parse (GIn neg ((c, c) :: acc)) p'
                   end
          | EmptyString =>
              if Ascii.eqb c "]" then [GClass neg acc]
              else [GClass neg ((c, c) :: acc)]
          end
      end
  end.

Definition in_range (c : ascii) (r : ascii * ascii) : bool :=
  (nat_of_ascii (fst r) <=? nat_of_ascii c)%nat &&
  (nat_of_ascii c <=? nat_of_ascii (snd r))%nat.

Fixpoint glob_match_toks (ts : list glob_tok) (s : string) : bool :=
  match ts with
  | [] => match s with EmptyString => true | _ => false end
  | GStar :: ts' =>
      (fix star (s : string) : bool :=
         glob_match_toks ts' s ||
         match s with
         | EmptyString => false
         | String _ s' => star s'
         end) s
  | GAny :: ts' =>
      match s with
      | String _ s' => glob_match_toks ts' s'
      | EmptyString => false
      end
  | GLit c :: ts' =>
      match s with
      | String a s' => Ascii.eqb c a && glob_match_toks ts' s'
      | EmptyString => false
      end
  | GClass neg ranges :: ts' =>
      match s with
      | String a s' =>
          xorb neg (existsb (in_range a) ranges) && glob_match_toks ts' s'
      | EmptyString => false
      end
  end.

Definition glob_match (pattern key : string) : bool :=
  glob_match_toks (glob_parse GOut pattern) key.

(** The characters a pattern does not take literally. *)
Definition is_meta (c : ascii) : bool :=
  Ascii.eqb c "*" || Ascii.eqb c "?" || Ascii.eqb c "[" || Ascii.eqb c "\".

(** A string free of them stands for itself when spliced into a pattern. *)
Fixpoint literal (s : string) : bool :=
  match s with
  | EmptyString => true
  | String c s' => negb (is_meta c) && literal s'
  end.

(** The tokens of a literal string. *)
Fixpoint lit_toks (s : string) : list glob_tok :=
  match s with
  | EmptyString => []
  | String c s' => GLit c :: lit_toks s'
  end.

(** [KEYS pattern]: every key matching the pattern, in the server's order. *)
Definition keys (pattern : string) (d : db) : list string :=
  List.filter (glob_match pattern) (map fst (map_to_list d)).

End Redis.

(** ** Python results *)

(** The exceptions of the model.  [DumpsError] is whatever [pickle.dumps]
    raises on an object it cannot pickle, and [LoadsError] whatever
    [pickle.loads] raises on bytes it cannot load: [UnpicklingError],
    [EOFError] on input that ends early, and others; the model does not
    tell these apart. *)
Inductive exn :=
| DumpsError
| LoadsError
| KeyError (key : string)
| ConnectionError.

Inductive result (A : Type) :=
| Ok (a : A)
| Raise (e : exn).
Arguments Ok {A} a.
Arguments Raise {A} e.

(** Sequencing: the first exception ends the computation. *)
#[global] Instance result_bind : MBind result := λ A B k r,
  match r with
  | Ok a => k a
  | Raise e => Raise e
  end.

(** ** Data model of the checkpointer *)

(** The ["configurable"] sub-dictionary of a LangGraph config. *)
Record Configurable := MkConfigurable {
  thread_id : option string;
  checkpoint_ns : option string;
  checkpoint_id : option string
}.

(** A config dictionary; ["configurable"] may be absent. *)
Record Config := MkConfig { configurable : option Configurable }.

(** A checkpoint: the store reads its ["id"] and nothing else. *)
Record Checkpoint := MkCheckpoint {
  cp_id : option string;
  cp_state : string
}.

(** Free-form annotations. *)
Abbreviation Metadata := (list (string * string)).

(** The dictionary that is pickled: [{"checkpoint", "metadata", "config"}].
    A dictionary read back from the store may lack any of the three keys. *)
Record Data := MkData {
  d_checkpoint : option Checkpoint;
  d_metadata : option Metadata;
  d_config : option Config
}.

Record CheckpointTuple := MkTuple {
  t_config : Config;
  t_checkpoint : Checkpoint;
  t_metadata : Metadata;
  t_parent_config : option Configurable
}.

(** [pickle.dumps] / [pickle.loads]: either may raise; what was dumped loads
    back unchanged, and a pickle is never the empty byte string. *)
Class Pickle := {
  dumps : Data → option bytes;
  loads : bytes → option Data;
  loads_dumps : ∀ d b, dumps d = Some b → loads b = Some d;
  dumps_nonempty : ∀ d b, dumps d = Some b → b ≠ []
}.

(** ** [RedisCheckpointSaver] *)

Module RedisCheckpointSaver.

Record t := Make {
  namespace : string;
  ttl : Z
}.

(** [__init__] defaults. *)
Definition default_saver : t :=
  {| namespace := "langgraph:checkpoint"; ttl := 86400 |}.

(** [config.get("configurable", {}).get("thread_id", "default")] *)
Definition get_thread_id (config : Config) : string :=
  default "default" (configurable config ≫= thread_id).

(** [config.get("configurable", {}).get("checkpoint_ns", "")] *)
Definition get_checkpoint_ns (config : Config) : string :=
  default "" (configurable config ≫= checkpoint_ns).

(** [config.get("configurable", {}).get("checkpoint_id")] *)
Definition get_checkpoint_id (config : Config) : option string :=
  configurable config ≫= checkpoint_id.

Definition _make_key (self : t) (thread_id : string) (checkpoint_ns : string)
    (checkpoint_id : option string) : string :=
  let parts := [namespace self; thread_id] in
  let parts := if PyStr.truthy checkpoint_ns then parts ++ [checkpoint_ns] else parts in
  let parts :=
    match checkpoint_id with
    | Some i => if PyStr.truthy i then parts ++ [i] else parts ++ ["latest"]
    | None => parts ++ ["latest"]
    end in
  PyStr.join ":" parts.

(** The last part of a key: the checkpoint id, or ["latest"] when the id is
    absent or empty. *)
Definition last_part (checkpoint_id : option string) : string :=
  match checkpoint_id with
  | Some i => if PyStr.truthy i then i else "latest"
  | None => "latest"
  end.

Section WithPickle.
Context `{Pickle}.

(** The dictionary [put] pickles. *)
Definition put_data (config : Config) (checkpoint : Checkpoint) (metadata : Metadata) : Data :=
  let thread_id := get_thread_id config in
  let checkpoint_ns := get_checkpoint_ns config in
  let safe_config :=
    {| configurable := Some {| thread_id := Some thread_id;
                               checkpoint_ns := Some checkpoint_ns;
                               checkpoint_id := cp_id checkpoint |} |} in
  {| d_checkpoint := Some checkpoint;
     d_metadata := Some metadata;
     d_config := Some safe_config |}.


Definition put (self : t) (config : Config) (checkpoint : Checkpoint)
    (metadata : Metadata) (d : Redis.db) : result Config * Redis.db :=
  let thread_id := get_thread_id config in
  let checkpoint_ns := get_checkpoint_ns config in
  match dumps (put_data config checkpoint metadata) with
  | None => (Raise DumpsError, d)
  | Some serialized =>
      let key := _make_key self thread_id checkpoint_ns (cp_id checkpoint) in
      let d := Redis.setex key (ttl self) serialized d in
      let latest_key := _make_key self thread_id checkpoint_ns None in
      let d := Redis.setex latest_key (ttl self) serialized d in
      (Ok config, d)
  end.

(** [put] against a server that answers [healthy] more commands and then
    drops the connection: the next command raises, and nothing in [put]
    catches it. *)
Definition put_interrupted (healthy : nat) (self : t) (config : Config)
    (checkpoint : Checkpoint) (metadata : Metadata) (d : Redis.db)
    : result Config * Redis.db :=
  let thread_id := get_thread_id config in
  let checkpoint_ns := get_checkpoint_ns config in
  match dumps (put_data config checkpoint metadata) with
  | None => (Raise DumpsError, d)
  | Some serialized =>
      let key := _make_key self thread_id checkpoint_ns (cp_id checkpoint) in
      match healthy with
      | O => (Raise ConnectionError, d)
      | S healthy =>
          let d := Redis.setex key (ttl self) serialized d in
          let latest_key := _make_key self thread_id checkpoint_ns None in
          match healthy with
          | O => (Raise ConnectionError, d)
          | S _ =>
              let d := Redis.setex latest_key (ttl self) serialized d in
              (Ok config, d)
          end
      end
  end.

(** The [CheckpointTuple(...)] built from an unpickled dictionary;
    [data["checkpoint"]] raises on a missing key, the other reads default. *)
Definition make_tuple (data : Data) (config : Config) : result CheckpointTuple :=
  match d_checkpoint data with
  | None => Raise (KeyError "checkpoint")
  | Some cp =>
      Ok {| t_config := default config (d_config data);
            t_checkpoint := cp;
            t_metadata := default [] (d_metadata data);
            t_parent_config := configurable (default (MkConfig None) (d_config data)) |}
  end.

Definition get_tuple (self : t) (config : Config) (d : Redis.db)
    : result (option CheckpointTuple) :=
  let thread_id := get_thread_id config in
  let checkpoint_ns := get_checkpoint_ns config in
  let checkpoint_id := get_checkpoint_id config in
  let key := _make_key self thread_id checkpoint_ns checkpoint_id in
  match Redis.get key d with
  | None => Ok None
  | Some serialized =>
      match loads serialized with
      | None => Raise LoadsError
      | Some data => tup ← make_tuple data config; Ok (Some tup)
      end
  end.

(** The pattern handed to [KEYS]. *)
Definition list_pattern (self : t) (config : Config) : string :=
  let thread_id := get_thread_id config in
  let checkpoint_ns := get_checkpoint_ns config in
  if PyStr.truthy checkpoint_ns
  then namespace self +:+ ":" +:+ thread_id +:+ ":" +:+ checkpoint_ns +:+ ":*"
  else namespace self +:+ ":" +:+ thread_id +:+ ":*".

(** The [for key in keys] loop; an exception leaves the loop and the call. *)
Fixpoint list_loop (config : Config) (d : Redis.db) (keys : list string)
    : result (list CheckpointTuple) :=
  match keys with
  | [] => Ok []
  | key :: keys' =>
      if PyStr.endswith ":latest" key then list_loop config d keys'
      else
        match Redis.get key d with
        | Some ((_ :: _) as serialized) =>
            match loads serialized with
            | None => Raise LoadsError
            | Some data =>
                tup ← make_tuple data config;
                tuples ← list_loop config d keys';
                Ok (tup :: tuples)
            end
        | _ => list_loop config d keys'
        end
  end.

(** [tuples[:limit]] *)
Definition slice_to {A} (limit : Z) (l : list A) : list A :=
  if 0 <=? limit then take (Z.to_nat limit) l
  else take (length l - Z.to_nat (- limit)) l.

Definition list_ (self : t) (config : Config) (limit : option Z) (d : Redis.db)
    : result (list CheckpointTuple) :=
  let keys := Redis.keys (list_pattern self config) d in
  tuples ← list_loop config d keys;
  Ok match limit with
     | Some n => if n =? 0 then tuples else slice_to n tuples
     | None => tuples
     end.

(** [put_writes] does nothing. *)
Definition put_writes (self : t) (config : Config) (writes : list (string * string))
    (task_id : string) (d : Redis.db) : Redis.db := d.

(** *** Vocabulary of the statements below *)

(** The key of a checkpoint of a config's session, and the session's alias key. *)
Definition checkpoint_key (self : t) (config : Config) (checkpoint : Checkpoint) : string :=
  _make_key self (get_thread_id config) (get_checkpoint_ns config) (cp_id checkpoint).

Definition latest_key (self : t) (config : Config) : string :=
  _make_key self (get_thread_id config) (get_checkpoint_ns config) None.

(** The key [get_tuple] reads. *)
Definition resolved_key (self : t) (config : Config) : string :=
  _make_key self (get_thread_id config) (get_checkpoint_ns config) (get_checkpoint_id config).

(** A listed tuple read from a given key. *)
Definition from_key (config : Config) (d : Redis.db) (key : string)
    (tup : CheckpointTuple) : Prop :=
  ∃ e data,
    d !! key = Some e ∧ loads (Redis.e_value e) = Some data ∧
    make_tuple data config = Ok tup.

(** A key whose record the loop of [list] reads: it does not end in
    [:latest], it is present, and its bytes are not empty. *)
Definition readable (d : Redis.db) (key : string) : Prop :=
  PyStr.endswith ":latest" key = false ∧
  ∃ e, d !! key = Some e ∧ Redis.e_value e ≠ [].

(** Such a key among those [KEYS] returns for the session. *)
Definition visited (self : t) (config : Config) (d : Redis.db) (key : string) : Prop :=
  key ∈ Redis.keys (list_pattern self config) d ∧ readable d key.

(** The keys whose records the loop of [list] reads, in the order in which
    it meets them. *)
Definition read_keys (d : Redis.db) (keys : list string) : list string :=
  List.filter
    (λ key, negb (PyStr.endswith ":latest" key) &&
            match d !! key with
            | Some e => match Redis.e_value e with [] => false | _ :: _ => true end
            | None => false
            end)
    keys.

(** What [list] is to return: the records of the session's keys that are
    read, one item per key and in the order of [KEYS], none of them the
    alias; all of them when there is no limit, and the first [limit] of
    them otherwise. *)
Definition list_contract (self : t) (config : Config) (limit : option Z)
    (d : Redis.db) : Prop :=
  ∀ tuples, list_ self config limit d = Ok tuples →
    let all := read_keys d (Redis.keys (list_pattern self config) d) in
    let ks := match limit with Some n => take (Z.to_nat n) all | None => all end in
    Forall2 (from_key config d) ks tuples ∧
    NoDup ks ∧
    (∀ key, key ∈ ks → visited self config d key ∧ key ≠ latest_key self config) ∧
    (limit = None → ∀ key, visited self config d key → key ∈ ks) ∧
    (∀ n, limit = Some n → Z.of_nat (length tuples) ≤ n).

(** One [put] call, and the store after a sequence of them. *)
Record put_call := PutCall {
  pc_config : Config;
  pc_checkpoint : Checkpoint;
  pc_metadata : Metadata
}.

Definition replay (self : t) (calls : list put_call) (d : Redis.db) : Redis.db :=
  foldl (λ d c, (put self (pc_config c) (pc_checkpoint c) (pc_metadata c) d).2) d calls.

(** Every entry of the store is the record of one of the calls, under that
    call's checkpoint key or latest key. *)
Definition written_by (self : t) (calls : list put_call) (d : Redis.db) : Prop :=
  ∀ key e, d !! key = Some e →
    ∃ c serialized,
      c ∈ calls ∧
      dumps (put_data (pc_config c) (pc_checkpoint c) (pc_metadata c)) = Some serialized ∧
      Redis.e_value e = serialized ∧
      (key = checkpoint_key self (pc_config c) (pc_checkpoint c) ∨
       key = latest_key self (pc_config c)).

(** Session [A] lists only what was put for [A], whatever was put for [B]. *)
Definition isolated (self : t) (A B : string) (calls : list put_call)
    (config : Config) (limit : option Z) : Prop :=
  A ≠ B →
  get_thread_id config = A →
  (∀ c, c ∈ calls → get_thread_id (pc_config c) = A ∨ get_thread_id (pc_config c) = B) →
  ∀ tuples, list_ self config limit (replay self calls ∅) = Ok tuples →
  ∀ tup, tup ∈ tuples →
    ∃ c, c ∈ calls ∧ get_thread_id (pc_config c) = A ∧
         t_checkpoint tup = pc_checkpoint c ∧ t_metadata tup = pc_metadata c.

(** A record that does not unpickle costs only itself: the call returns,
    and every readable record of the session is in what it returns. *)
Definition list_skips_corrupt (self : t) (config : Config) (d : Redis.db) : Prop :=
  ∀ key e,
    visited self config d key → d !! key = Some e → loads (Redis.e_value e) = None →
    ∃ tuples, list_ self config None d = Ok tuples ∧
      ∀ key' tup, visited self config d key' → from_key config d key' tup → tup ∈ tuples.

End WithPickle.
End RedisCheckpointSaver.

(** ** [ConversationAnalyzerTool] *)

(** A conversation entry: a dictionary with ["role"], ["content"] and
    possibly ["reasoning_content"]. *)
Abbreviation message := (gmap string string).

Module ConversationAnalyzerTool.

(** [msg.get("role") == "user"] *)
Definition is_user (msg : message) : bool :=
  bool_decide (msg !! "role" = Some "user").

(** [msg.get("content", "")] *)
Definition content (msg : message) : string :=
  default "" (msg !! "content").

Definition _check_mentions (conversation : list message) (keywords : list string) : bool :=
  let user_messages :=
    map (λ msg, PyStr.lower (content msg)) (List.filter is_user conversation) in
  let full_text := PyStr.join " " user_messages in
  existsb (λ keyword, PyStr.contains keyword full_text) keywords.

(** [round(x, 2)]: to the nearest hundredth, ties to the even one. *)
Definition round2 (x : Q) : Q :=
  let n := (x * 100)%Q in
  let f := Qfloor n in
  let r := (n - inject_Z f)%Q in
  let up :=
    match (r ?= 1 # 2)%Q with
    | Lt => false
    | Gt => true
    | Eq => Z.odd f
    end in
  ((if up then f + 1 else f) # 100)%Q.

(** The dictionary [_run] returns; the empty-history branch has neither
    ["coverage_score"] nor ["recommendation"]. *)
Record analysis := MkAnalysis {
  turn_count : nat;
  coverage : list (string * bool);
  coverage_score : option Q;
  ready_for_summary : bool;
  recommendation : option string
}.

(** The unrounded score computed on the way. *)
Definition raw_score (coverage : list (string * bool)) : Q :=
  (inject_Z (Z.of_nat (length (List.filter (λ v, v) (map snd coverage))))
   / inject_Z (Z.of_nat (length coverage)))%Q.

Definition _run (conversation_history : list message) : analysis :=
  match conversation_history with
  | [] =>
      {| turn_count := 0;
         coverage := [];
         coverage_score := None;
         ready_for_summary := false;
         recommendation := None |}
  | _ :: _ =>
      let turn_count := length (List.filter is_user conversation_history) in
      let coverage :=
        [ ("taste_anchors",
           _check_mentions conversation_history ["book"; "author"; "story"; "novel"]);
          ("style_preference",
           _check_mentions conversation_history ["prose"; "writing"; "style"; "voice"]);
          ("narrative_desire",
           _check_mentions conversation_history ["wish"; "want"; "story"; "plot"]);
          ("consumption_habit",
           _check_mentions conversation_history ["read"; "time"; "daily"; "pages"]) ] in
      let coverage_score := raw_score coverage in
      let ready_for_summary :=
        (8 <=? turn_count)%nat && Qle_bool (3 # 4) coverage_score in
      {| turn_count := turn_count;
         coverage := coverage;
         coverage_score := Some (round2 coverage_score);
         ready_for_summary := ready_for_summary;
         recommendation :=
           Some (if ready_for_summary
                 then "Consider wrapping up and summarizing profile"
                 else "Continue probing for missing dimensions") |}
  end.

(** The fixed dimensions and their keyword sets, as [_run] lists them. *)
Definition dimensions : list (string * list string) :=
  [ ("taste_anchors", ["book"; "author"; "story"; "novel"]);
    ("style_preference", ["prose"; "writing"; "style"; "voice"]);
    ("narrative_desire", ["wish"; "want"; "story"; "plot"]);
    ("consumption_habit", ["read"; "time"; "daily"; "pages"]) ].

(** The lower-cased contents of the user-authored messages. *)
Definition user_texts (conversation : list message) : list string :=
  map (λ msg, PyStr.lower (content msg)) (List.filter is_user conversation).

(** Keywords for which the check agrees with its description: lower-case,
    not empty, without a space. *)
Definition plain_keyword (k : string) : Prop :=
  k ≠ "" ∧ PyStr.has_char " " k = false ∧ PyStr.lower k = k.

(** Reading the specification: a dimension is covered when some user-authored
    message contains one of the keywords, compared without regard to case. *)
Definition mentions_ci (keyword : string) (msg : message) : bool :=
  PyStr.contains (PyStr.lower keyword) (PyStr.lower (content msg)).

Definition spec_covered (conversation : list message) (keywords : list string) : Prop :=
  ∃ msg keyword,
    msg ∈ conversation ∧ is_user msg = true ∧
    keyword ∈ keywords ∧ mentions_ci keyword msg = true.

(** What the specification says [_run] returns on a history. *)
Definition spec_result (conversation : list message) (r : analysis) : Prop :=
  turn_count r = length (List.filter is_user conversation) ∧
  (∀ name keywords, (name, keywords) ∈ dimensions →
     ∃ b, (list_to_map (coverage r) : gmap string bool) !! name = Some b ∧
          (b = true ↔ spec_covered conversation keywords)) ∧
  (∃ q, coverage_score r = Some q ∧
        (q == inject_Z (Z.of_nat (length (List.filter (λ v, v) (map snd (coverage r)))))
              / inject_Z (Z.of_nat (length dimensions)))%Q) ∧
  (ready_for_summary r = true ↔
     (8 ≤ turn_count r)%nat ∧
     ∃ q, coverage_score r = Some q ∧ (3 # 4 <= q)%Q).

End ConversationAnalyzerTool.

(** ** The conversation loop of [cli_interview.py] *)

Module Cli.

Inductive completion_status := in_progress | complete | early_exit | interrupted.

(** What [agent.send_message] hands back, as far as the loop reads it. *)
Record response := MkResponse {
  r_message : string;
  r_is_complete : bool;
  r_reasoning : option string
}.

(** What the [try] block of a pass does, lines 191 to 275: the agent call
    returns [r] and nothing after it raises ([Replies]); the call raises,
    before anything is recorded ([Fails]); the call returns a response
    without the key [message], so that line 203 raises after line 202 has
    appended the user's entry ([RepliesNoMessage]); or the call returns
    [r], lines 202 to 207 record the turn, and the completion block of
    lines 220 to 268, if the pass enters it, raises, which is what happens
    when [generate_profile] raises or returns [None]
    ([RepliesBlockRaises]).  Every exception is caught at line 272 and the
    handler ends in [continue], with what was recorded left in place. *)
Inductive agent_outcome :=
| Replies (r : response)
| Fails
| RepliesNoMessage
| RepliesBlockRaises (r : response).

(** One pass of [while True]: the prompt is interrupted, or [user_input] is
    read (already stripped) and, if it is a turn, the agent is called. *)
Inductive event :=
| Interrupt
| Input (user_input : string) (agent : agent_outcome).

Record state := MkState {
  conversation_history : list message;
  turn_count : nat;
  status : completion_status
}.

Definition initial : state :=
  {| conversation_history := []; turn_count := 0; status := in_progress |}.

(** How a pass leaves the loop body: [continue], one of the three exits,
    or, with [CompleteRaised], the [continue] of the handler after the test
    of line 219 held and the completion block raised before its [break]. *)
Inductive decision := Continue | Complete | EarlyExit | Interrupted | CompleteRaised.

(** [user_input.lower() in ["quit", "exit", "q"]] *)
Definition is_quit (user_input : string) : bool :=
  bool_decide (PyStr.lower user_input ∈ ["quit"; "exit"; "q"]).

Definition user_entry (user_input : string) : message :=
  {[ "role" := "user"; "content" := user_input ]}.

Definition assistant_entry (r : response) : message :=
  let entry : message := {[ "role" := "assistant"; "content" := r_message r ]} in
  match r_reasoning r with
  | Some reasoning =>
      if PyStr.truthy reasoning then <["reasoning_content" := reasoning]> entry else entry
  | None => entry
  end.

(** One pass of the loop body.  [status] is the [completion_status] of the
    exit taken, and stays [in_progress] while the loop goes on.  The exit
    paths of an interrupt and of a quit command are outside the [try]
    block: an exception there is not caught and ends the program as the
    exit does. *)
Definition step (st : state) (ev : event) : state * decision :=
  match ev with
  | Interrupt =>
      ({| conversation_history := conversation_history st;
          turn_count := turn_count st;
          status := interrupted |}, Interrupted)
  | Input user_input agent =>
      if negb (PyStr.truthy user_input) then (st, Continue)
      else if is_quit user_input then
        ({| conversation_history := conversation_history st;
            turn_count := turn_count st;
            status := early_exit |}, EarlyExit)
      else
        match agent with
        | Fails => (st, Continue)
        | RepliesNoMessage =>
            ({| conversation_history :=
                  conversation_history st ++ [user_entry user_input];
                turn_count := turn_count st;
                status := status st |}, Continue)
        | Replies r =>
            let history :=
              conversation_history st ++ [user_entry user_input; assistant_entry r] in
            let turn_count := (turn_count st + 1)%nat in
            if r_is_complete r || (12 <=? turn_count)%nat then
              ({| conversation_history := history;
                  turn_count := turn_count;
                  status := complete |}, Complete)
            else
              ({| conversation_history := history;
                  turn_count := turn_count;
                  status := in_progress |}, Continue)
        | RepliesBlockRaises r =>
            let history :=
              conversation_history st ++ [user_entry user_input; assistant_entry r] in
            let turn_count := (turn_count st + 1)%nat in
            if r_is_complete r || (12 <=? turn_count)%nat then
              ({| conversation_history := history;
                  turn_count := turn_count;
                  status := in_progress |}, CompleteRaised)
            else
              ({| conversation_history := history;
                  turn_count := turn_count;
                  status := in_progress |}, Continue)
        end
  end.

(** The loop over a stream of events: it goes round again after a
    [continue], also the handler's, and stops at the first exit. *)
Fixpoint run (st : state) (evs : list event) : state :=
  match evs with
  | [] => st
  | ev :: evs' =>
      match step st ev with
      | (st', Continue) | (st', CompleteRaised) => run st' evs'
      | (st', _) => st'
      end
  end.

(** A pass on which the completion block, if entered, reaches its [break]. *)
Definition block_finishes (ev : event) : Prop :=
  match ev with
  | Input _ (RepliesBlockRaises _) => False
  | _ => True
  end.

(** A pass on which the response, if there is one, carries its [message]. *)
Definition has_message (ev : event) : Prop :=
  match ev with
  | Input _ RepliesNoMessage => False
  | _ => True
  end.

(** The symbols of the progress bar: a filled and a hollow circle. *)
Inductive dot := Filled | Hollow.

(** The bar [print_status] prints: [turn_count] filled circles, then hollow
    ones up to [max_turns]; a negative repeat count gives nothing. *)
Definition progress (turn_count max_turns : nat) : list dot :=
  repeat Filled turn_count ++ repeat Hollow (max_turns - turn_count).

(** Reading [user_input] at the top of the loop: the line is stripped, and
    one longer than 2000 characters is cut to 2000 unless the answer to the
    confirmation prompt, stripped and lower-cased, is [y]. *)
Definition read_input (line confirm_line : string) : string :=
  let user_input := PyStr.strip line in
  if (2000 <? String.length user_input)%nat then
    let confirm := PyStr.lower (PyStr.strip confirm_line) in
    if negb (String.eqb confirm "y") then PyStr.take 2000 user_input
    else user_input
  else user_input.

(** An entry the loop appends to the history. *)
Definition loop_entry (msg : message) : Prop :=
  (∃ user_input, msg = user_entry user_input) ∨ (∃ r, msg = assistant_entry r).

(** Two entries per counted turn, one of them the user's. *)
Definition paired (st : state) : Prop :=
  length (conversation_history st) = (2 * turn_count st)%nat ∧
  length (List.filter ConversationAnalyzerTool.is_user (conversation_history st)) =
  turn_count st.

(** One user entry at least, and exactly one other entry, per counted
    turn: the handler can leave a user entry without its answer. *)
Definition counted (st : state) : Prop :=
  let users :=
    length (List.filter ConversationAnalyzerTool.is_user (conversation_history st)) in
  (turn_count st ≤ users)%nat ∧
  length (conversation_history st) = (users + turn_count st)%nat.

(** An agent that never flags completion in the events of a run. *)
Definition never_flags (ev : event) : Prop :=
  match ev with
  | Input _ (Replies r) | Input _ (RepliesBlockRaises r) => r_is_complete r = false
  | _ => True
  end.

(** While the loop runs the session is in progress and below the ceiling. *)
Definition running (st : state) : Prop :=
  status st = in_progress ∧ (turn_count st < 12)%nat.



End Cli.

(** ** [ReasoningExtractor] *)

Module ReasoningExtractor.

(** A model response: either attribute may be missing. *)
Record llm_response := MkLlmResponse {
  additional_kwargs : option (gmap string string);
  response_metadata : option (gmap string string)
}.

(** [d.get('reasoning_content')] kept only when truthy. *)
Definition truthy_reasoning (d : gmap string string) : option string :=
  match d !! "reasoning_content" with
  | Some reasoning => if PyStr.truthy reasoning then Some reasoning else None
  | None => None
  end.

Definition extract_reasoning (response : llm_response) : option string :=
  match additional_kwargs response ≫= truthy_reasoning with
  | Some reasoning => Some reasoning
  | None =>
      match response_metadata response ≫= truthy_reasoning with
      | Some reasoning => Some reasoning
      | None => None
      end
  end.

(** A LangChain message, as [extract_from_messages] reads it. *)
Record lc_message := MkLcMessage {
  m_type : string;
  m_content : string;
  m_additional_kwargs : option (gmap string string)
}.

Definition extract_from_messages (messages : list lc_message) : list message :=
  map (λ msg,
         let result : message := {[ "role" := m_type msg; "content" := m_content msg ]} in
         match m_additional_kwargs msg with
         | Some kw =>
             if bool_decide (kw = ∅) then result
             else match truthy_reasoning kw with
                  | Some reasoning => <["reasoning_content" := reasoning]> result
                  | None => result
                  end
         | None => result
         end)
      messages.

Definition format_reasoning (reasoning : string) (max_length : option Z) : string :=
  if negb (PyStr.truthy reasoning) then ""
  else
    let formatted := PyStr.strip reasoning in
    match max_length with
    | Some n =>
        if negb (n =? 0) && (n <? Z.of_nat (String.length formatted))
        then PyStr.slice_to n formatted +:+ "..."
        else formatted
    | None => formatted
    end.

(** One entry of the reasoning file. *)
Record reasoning_row := MkRow {
  turn : nat;
  role : option string;
  content_preview : string;
  reasoning : string
}.

(** The loop over [enumerate(conversation)], from index [i]. *)
Fixpoint reasoning_rows (i : nat) (conversation : list message) : list reasoning_row :=
  match conversation with
  | [] => []
  | msg :: rest =>
      match msg !! "reasoning_content" with
      | Some r =>
          {| turn := i;
             role := msg !! "role";
             content_preview := PyStr.take 100 (default "" (msg !! "content")) +:+ "...";
             reasoning := r |} :: reasoning_rows (S i) rest
      | None => reasoning_rows (S i) rest
      end
  end.

(** A row that comes from a message of the conversation, at its index. *)
Definition row_of (conversation : list message) (r : reasoning_row) : Prop :=
  ∃ msg,
    conversation !! turn r = Some msg ∧
    msg !! "reasoning_content" = Some (reasoning r) ∧
    role r = msg !! "role" ∧
    (String.length (content_preview r) ≤ 103)%nat.

(** Files by path, each holding the rows dumped into it. *)
Definition save_reasoning_separately (conversation : list message)
    (output_path : string) (files : gmap string (list reasoning_row))
    : gmap string (list reasoning_row) :=
  let reasoning_data := reasoning_rows 0 conversation in
  match reasoning_data with
  | [] => files
  | _ :: _ => <[output_path := reasoning_data]> files
  end.

End ReasoningExtractor.

(** ** A reference pickle

    An executable instance of [Pickle]: the record is numbered through its
    components and the number is written out bit by bit behind the protocol
    opcode [0x80]. Bytes that are not of this form do not load. *)

Module RefPickle.

#[global] Instance Configurable_eq_dec : EqDecision Configurable.
Proof. solve_decision. Defined.
#[global] Instance Config_eq_dec : EqDecision Config.
Proof. solve_decision. Defined.
#[global] Instance Checkpoint_eq_dec : EqDecision Checkpoint.
Proof. solve_decision. Defined.
#[global] Instance Data_eq_dec : EqDecision Data.
Proof. solve_decision. Defined.

#[global] Instance Configurable_countable : Countable Configurable :=
  inj_countable'
    (λ c, (thread_id c, checkpoint_ns c, checkpoint_id c))
    (λ '(a, b, c), MkConfigurable a b c)
    (λ c, match c with MkConfigurable _ _ _ => eq_refl end).

#[global] Instance Config_countable : Countable Config :=
  inj_countable' configurable MkConfig
    (λ c, match c with MkConfig _ => eq_refl end).

#[global] Instance Checkpoint_countable : Countable Checkpoint :=
  inj_countable'
    (λ c, (cp_id c, cp_state c))
    (λ '(a, b), MkCheckpoint a b)
    (λ c, match c with MkCheckpoint _ _ => eq_refl end).

#[global] Instance Data_countable : Countable Data :=
  inj_countable'
    (λ d, (d_checkpoint d, d_metadata d, d_config d))
    (λ '(a, b, c), MkData a b c)
    (λ d, match d with MkData _ _ _ => eq_refl end).

Fixpoint bits_of (p : positive) : bytes :=
  match p with
  | xH => []
  | xO p' => Byte.x00 :: bits_of p'
  | xI p' => Byte.x01 :: bits_of p'
  end.

Fixpoint of_bits (b : bytes) : option positive :=
  match b with
  | [] => Some xH
  | Byte.x00 :: b' => xO <$> of_bits b'
  | Byte.x01 :: b' => xI <$> of_bits b'
  | _ => None
  end.

Definition pickled (d : Data) : bytes :=
  Byte.x80 :: bits_of (encode d).

Definition ref_dumps (d : Data) : option bytes := Some (pickled d).

Definition ref_loads (b : bytes) : option Data :=
  match b with
  | Byte.x80 :: b' => of_bits b' ≫= decode
  | _ => None
  end.

Lemma of_bits_of p : of_bits (bits_of p) = Some p.
Proof. induction p as [p IH|p IH|]; simpl; rewrite ?IH; reflexivity. Qed.

Lemma ref_loads_dumps d b : ref_dumps d = Some b → ref_loads b = Some d.
Proof.
  intros [= <-]. unfold ref_loads, pickled. rewrite of_bits_of. simpl.
  apply decode_encode.
Qed.

Lemma ref_dumps_nonempty d b : ref_dumps d = Some b → b ≠ [].
Proof. intros [= <-]. discriminate. Qed.

#[global] Instance ref_pickle : Pickle :=
  {| dumps := ref_dumps;
     loads := ref_loads;
     loads_dumps := ref_loads_dumps;
     dumps_nonempty := ref_dumps_nonempty |}.

End RefPickle.

(** ** Concrete inputs *)

Module Examples.
Import RedisCheckpointSaver.

Definition config_for (thread : string) : Config :=
  MkConfig (Some (MkConfigurable (Some thread) None None)).

Definition config_a : Config := config_for "a".
Definition no_thread : Config := MkConfig (Some (MkConfigurable None None None)).
Definition no_configurable : Config := MkConfig None.

Definition cp1 : Checkpoint := MkCheckpoint (Some "c1") "turn 1".
Definition cp2 : Checkpoint := MkCheckpoint (Some "c2") "turn 2".
Definition md1 : Metadata := [("turn", "1")].
Definition md2 : Metadata := [("turn", "2")].

(** The store after one [put] for session ["a"]. *)
Definition db_a : Redis.db := (put default_saver config_a cp1 md1 ∅).2.

(** The same store with a record that is not a pickle beside it. *)
Definition garbage : bytes := [Byte.x67; Byte.x61; Byte.x72; Byte.x62].
Definition db_corrupt : Redis.db :=
  Redis.setex "langgraph:checkpoint:a:c0" 86400 garbage db_a.

(** Sessions ["s"] and ["s:x"], written in turn. *)
Definition interleaved : list put_call :=
  [ PutCall (config_for "s") cp1 md1;
    PutCall (config_for "s:x") cp2 md2;
    PutCall (config_for "s") cp1 md1 ].

Definition user_says (text : string) : message :=
  {[ "role" := "user"; "content" := text ]}.

Definition reply (text : string) (complete : bool) : Cli.response :=
  Cli.MkResponse text complete None.


(** Session ["a"] asked for by checkpoint id. *)
Definition config_a_c1 : Config :=
  MkConfig (Some (MkConfigurable (Some "a") None (Some "c1"))).

(** A checkpoint without an id. *)
Definition cp_no_id : Checkpoint := MkCheckpoint None "turn 0".

(** Twelve answered turns, none flagged complete. *)
Definition twelve_turns : list Cli.event :=
  repeat (Cli.Input "I read daily" (Cli.Replies (reply "noted" false))) 12.

(** Twelve answered turns whose completion block raises on the twelfth,
    and one more. *)
Definition thirteen_turns : list Cli.event :=
  repeat (Cli.Input "I read daily" (Cli.Replies (reply "noted" false))) 11 ++
  [Cli.Input "I read daily" (Cli.RepliesBlockRaises (reply "noted" false));
   Cli.Input "I read daily" (Cli.Replies (reply "noted" false))].

Definition assistant_says (text : string) : message :=
  {[ "role" := "assistant"; "content" := text ]}.

End Examples.

(** * Properties *)

(** ** Strings *)

Section StringFacts.

#[local] Arguments String.append !_ _ / : simpl nomatch.

Lemma app_assoc_s (a b c : string) : (a +:+ b) +:+ c = a +:+ (b +:+ c).
Proof. induction a as [|x a IH]; simpl; [reflexivity | by f_equal]. Qed.

Lemma app_nil_r_s (a : string) : a +:+ "" = a.
Proof. induction a as [|x a IH]; simpl; [reflexivity | by f_equal]. Qed.

Lemma startswith_spec (p s : string) :
  PyStr.startswith p s = true ↔ ∃ r, s = p +:+ r.
Proof.
  revert s. induction p as [|a p IH]; intros s; simpl.
  - split; [intros _; by exists s | done].
  - destruct s as [|b s].
    + split; [done | intros [r Hr]; discriminate].
    + rewrite andb_true_iff, IH. split.
      * intros [Hab [r ->]]. apply Ascii.eqb_eq in Hab as ->. by exists r.
      * intros [r [= -> ->]]. split; [apply Ascii.eqb_refl | by exists r].
Qed.

Lemma startswith_app (p r : string) : PyStr.startswith p (p +:+ r) = true.
Proof. apply startswith_spec. by exists r. Qed.

Lemma endswith_spec (p s : string) :
  PyStr.endswith p s = true ↔ ∃ r, s = r +:+ p.
Proof.
  induction s as [|b s IH]; simpl.
  - rewrite orb_false_r, String.eqb_eq. split.
    + intros ->. by exists "".
    + intros [[|x r] Hr]; simpl in Hr; [done | discriminate].
  - rewrite orb_true_iff, String.eqb_eq, IH. split.
    + intros [-> | [r ->]]; [by exists "" | by exists (String b r)].
    + intros [[|x r] Hr]; simpl in Hr; [by left |].
      injection Hr as -> ->. right. by exists r.
Qed.

Lemma endswith_app (r p : string) : PyStr.endswith p (r +:+ p) = true.
Proof. apply endswith_spec. by exists r. Qed.

Lemma contains_spec (k s : string) :
  PyStr.contains k s = true ↔ ∃ a b, s = a +:+ k +:+ b.
Proof.
  induction s as [|c s IH]; simpl.
  - rewrite orb_false_r, startswith_spec. split.
    + intros [r Hr]. by exists "", r.
    + intros [[|x a] [b Hb]]; simpl in Hb; [by exists b | discriminate].
  - rewrite orb_true_iff, startswith_spec, IH. split.
    + intros [[r Hr] | (a & b & ->)]; [by exists "", r | by exists (String c a), b].
    + intros [[|x a] [b Hb]]; simpl in Hb; [left; by exists b |].
      injection Hb as -> ->. right. by exists a, b.
Qed.

Lemma lower_app (a b : string) :
  PyStr.lower (a +:+ b) = PyStr.lower a +:+ PyStr.lower b.
Proof. induction a as [|x a IH]; simpl; [reflexivity | by f_equal]. Qed.

Lemma has_char_app (c : ascii) (a b : string) :
  PyStr.has_char c (a +:+ b) = PyStr.has_char c a || PyStr.has_char c b.
Proof.
  induction a as [|x a IH]; simpl; [reflexivity |].
  by rewrite IH, orb_assoc.
Qed.

(** Two strings that agree up to a separator neither contains. *)
Lemma app_sep_inj (c : ascii) (a b r1 r2 : string) :
  PyStr.has_char c a = false → PyStr.has_char c b = false →
  a +:+ String c r1 = b +:+ String c r2 → a = b ∧ r1 = r2.
Proof.
  revert b. induction a as [|x a IH]; intros [|y b]; simpl.
  - intros _ _ [= ->]. done.
  - intros _ Hb [= <- _]. rewrite Ascii.eqb_refl in Hb. discriminate.
  - intros Ha _ [= -> _]. rewrite Ascii.eqb_refl in Ha. discriminate.
  - intros Ha Hb [= -> Heq].
    apply orb_false_iff in Ha as [_ Ha]. apply orb_false_iff in Hb as [_ Hb].
    destruct (IH b Ha Hb Heq) as [-> ->]. done.
Qed.

End StringFacts.

(** ** Glob patterns *)

Section GlobFacts.

#[local] Arguments String.append !_ _ / : simpl nomatch.

Lemma literal_app (a b : string) :
  Redis.literal (a +:+ b) = Redis.literal a && Redis.literal b.
Proof.
  induction a as [|x a IH]; simpl; [reflexivity |].
  by rewrite IH, andb_assoc.
Qed.

Lemma glob_parse_literal (lit p : string) :
  Redis.literal lit = true →
  Redis.glob_parse Redis.GOut (lit +:+ p) = Redis.lit_toks lit ++ Redis.glob_parse Redis.GOut p.
Proof.
  induction lit as [|c lit IH]; simpl; [done |].
  intros [Hc Hlit]%andb_true_iff.
  unfold Redis.is_meta in Hc. apply negb_true_iff in Hc.
  repeat (apply orb_false_iff in Hc as [Hc ?]).
  rewrite Hc. simpl.
  repeat match goal with H : Ascii.eqb c _ = false |- _ => rewrite H; clear H end.
  by rewrite IH.
Qed.

Lemma glob_star_any (s : string) : Redis.glob_match_toks [Redis.GStar] s = true.
Proof. induction s as [|c s IH]; simpl in *; [reflexivity | exact IH]. Qed.

Lemma glob_match_lit_toks (lit s : string) :
  Redis.glob_match_toks (Redis.lit_toks lit ++ [Redis.GStar]) s = PyStr.startswith lit s.
Proof.
  revert s. induction lit as [|c lit IH]; intros s.
  - apply glob_star_any.
  - destruct s as [|a s]; simpl; [reflexivity |]. by rewrite <- IH.
Qed.

(** A literal prefix followed by [*] matches exactly the keys with that prefix. *)
Lemma glob_match_prefix (lit key : string) :
  Redis.literal lit = true →
  Redis.glob_match (lit +:+ "*") key = PyStr.startswith lit key.
Proof.
  intros Hlit. unfold Redis.glob_match.
  rewrite (glob_parse_literal lit "*" Hlit). apply glob_match_lit_toks.
Qed.

Lemma elem_of_keys (pattern key : string) (d : Redis.db) :
  key ∈ Redis.keys pattern d ↔
  Redis.glob_match pattern key = true ∧ is_Some (d !! key).
Proof.
  unfold Redis.keys. rewrite list_elem_of_In, filter_In, <- list_elem_of_In.
  rewrite list_elem_of_fmap. split.
  - intros [([k e] & -> & Hke) Hm]. simpl in *.
    apply elem_of_map_to_list in Hke. eauto.
  - intros [Hm [e He]]. split; [| done].
    exists (key, e). split; [done |]. by apply elem_of_map_to_list.
Qed.

End GlobFacts.

(** ** The checkpoint store *)

Section SaverFacts.
Context `{Pickle}.
Import RedisCheckpointSaver.

Implicit Types (self : t) (config : Config) (checkpoint : Checkpoint)
  (metadata : Metadata) (d : Redis.db).

(** The shape of every key: namespace, session, then the rest. *)
Lemma make_key_shape self (thread ns : string) (id : option string) :
  _make_key self thread ns id =
  namespace self +:+ ":" +:+ thread +:+ ":" +:+
  (let last := match id with
               | Some i => if PyStr.truthy i then i else "latest"
               | None => "latest"
               end in
   if PyStr.truthy ns then ns +:+ ":" +:+ last else last).
Proof.
  unfold _make_key, PyStr.join.
  destruct ns as [|c ns]; destruct id as [[|a i]|]; reflexivity.
Qed.

Lemma latest_key_endswith self config :
  PyStr.endswith ":latest" (latest_key self config) = true.
Proof.
  unfold latest_key. rewrite make_key_shape. apply endswith_spec.
  destruct (PyStr.truthy (get_checkpoint_ns config)).
  - exists (namespace self +:+ ":" +:+ get_thread_id config +:+ ":" +:+
            get_checkpoint_ns config).
    by rewrite !app_assoc_s.
  - exists (namespace self +:+ ":" +:+ get_thread_id config).
    by rewrite !app_assoc_s.
Qed.

Lemma put_unfold self config checkpoint metadata d serialized :
  dumps (put_data config checkpoint metadata) = Some serialized →
  put self config checkpoint metadata d =
  (Ok config,
   Redis.setex (latest_key self config) (ttl self) serialized
     (Redis.setex (checkpoint_key self config checkpoint) (ttl self) serialized d)).
Proof. intros Hs. unfold put. by rewrite Hs. Qed.

Lemma put_lookup_latest self config checkpoint metadata d serialized :
  dumps (put_data config checkpoint metadata) = Some serialized →
  (put self config checkpoint metadata d).2 !! latest_key self config =
  Some (Redis.Entry (ttl self) serialized).
Proof.
  intros Hs. rewrite (put_unfold _ _ _ _ _ _ Hs). simpl.
  unfold Redis.setex. apply lookup_insert_eq.
Qed.

Lemma put_lookup_checkpoint self config checkpoint metadata d serialized :
  dumps (put_data config checkpoint metadata) = Some serialized →
  (put self config checkpoint metadata d).2 !! checkpoint_key self config checkpoint =
  Some (Redis.Entry (ttl self) serialized).
Proof.
  intros Hs. rewrite (put_unfold _ _ _ _ _ _ Hs). simpl.
  unfold Redis.setex. rewrite lookup_insert. case_decide; [done |].
  apply lookup_insert_eq.
Qed.

(** Keys other than the two written keep their entries. *)
Lemma put_lookup_other self config checkpoint metadata d key :
  key ≠ checkpoint_key self config checkpoint → key ≠ latest_key self config →
  (put self config checkpoint metadata d).2 !! key = d !! key.
Proof.
  intros Hk Hl. unfold put.
  destruct (dumps _) as [serialized|]; [| done]. simpl.
  fold (checkpoint_key self config checkpoint) (latest_key self config).
  unfold Redis.setex. by rewrite !lookup_insert_ne.
Qed.

(** What [get_tuple] answers is decided by the entry under the resolved key. *)
Lemma get_tuple_unfold self config d :
  get_tuple self config d =
  match d !! resolved_key self config with
  | None => Ok None
  | Some e =>
      match loads (Redis.e_value e) with
      | None => Raise LoadsError
      | Some data => tup ← make_tuple data config; Ok (Some tup)
      end
  end.
Proof.
  unfold get_tuple, Redis.get. fold (resolved_key self config).
  by destruct (d !! resolved_key self config).
Qed.

Lemma get_tuple_of_put_data self config' config checkpoint metadata d serialized :
  d !! resolved_key self config' = Some (Redis.Entry (ttl self) serialized) →
  dumps (put_data config checkpoint metadata) = Some serialized →
  ∃ tup, get_tuple self config' d = Ok (Some tup) ∧
         t_checkpoint tup = checkpoint ∧ t_metadata tup = metadata ∧
         configurable (t_config tup) ≫= thread_id = Some (get_thread_id config).
Proof.
  intros Hd Hs. rewrite get_tuple_unfold, Hd. simpl.
  rewrite (loads_dumps _ _ Hs). simpl. eauto.
Qed.


(** C2. [put] followed by [get_tuple] with no checkpoint id, for the same
    session and checkpoint namespace, returns a tuple whose checkpoint and
    metadata are the ones written, for every record the pickler accepts. *)
Theorem put_then_get_latest self config_put config_get checkpoint metadata d serialized :
  dumps (put_data config_put checkpoint metadata) = Some serialized →
  get_thread_id config_get = get_thread_id config_put →
  get_checkpoint_ns config_get = get_checkpoint_ns config_put →
  get_checkpoint_id config_get = None →
  ∃ tup,
    get_tuple self config_get (put self config_put checkpoint metadata d).2 = Ok (Some tup) ∧
    t_checkpoint tup = checkpoint ∧ t_metadata tup = metadata.
Proof.
  intros Hs Ht Hns Hid.
  destruct (get_tuple_of_put_data self config_get config_put checkpoint metadata
              (put self config_put checkpoint metadata d).2 serialized)
    as (tup & Hg & Hc & Hm & _); [| done | by exists tup].
  unfold resolved_key. rewrite Ht, Hns, Hid.
  by apply put_lookup_latest.
Qed.


End SaverFacts.

(** ** Listing *)

Section ListFacts.
Context `{Pickle}.
Import RedisCheckpointSaver.

Implicit Types (self : t) (config : Config) (d : Redis.db) (keys ks : list string)
  (tuples : list CheckpointTuple).

Lemma keys_NoDup (pattern : string) d : NoDup (Redis.keys pattern d).
Proof.
  unfold Redis.keys. apply NoDup_ListNoDup, List.NoDup_filter, NoDup_ListNoDup.
  apply NoDup_fst_map_to_list.
Qed.

(** One step of the loop, by cases on the key. *)
Lemma list_loop_skip config d key keys :
  ¬ readable d key →
  list_loop config d (key :: keys) = list_loop config d keys.
Proof.
  intros Hn. simpl. destruct (PyStr.endswith ":latest" key) eqn:He; [done |].
  unfold Redis.get. destruct (d !! key) as [e|] eqn:Hd; simpl; [| done].
  destruct (Redis.e_value e) as [|b bs] eqn:Hv; [done |].
  exfalso. apply Hn. split; [done |]. exists e. split; [done |]. by rewrite Hv.
Qed.

Lemma list_loop_read config d key keys e :
  PyStr.endswith ":latest" key = false →
  d !! key = Some e → Redis.e_value e ≠ [] →
  list_loop config d (key :: keys) =
  match loads (Redis.e_value e) with
  | None => Raise LoadsError
  | Some data =>
      tup ← make_tuple data config;
      tuples ← list_loop config d keys;
      Ok (tup :: tuples)
  end.
Proof.
  intros He Hd Hv. simpl. rewrite He. unfold Redis.get. rewrite Hd. simpl.
  by destruct (Redis.e_value e).
Qed.

Lemma readable_dec d key : readable d key ∨ ¬ readable d key.
Proof.
  unfold readable. destruct (PyStr.endswith ":latest" key).
  { right. by intros [? _]. }
  destruct (d !! key) as [e|].
  2: { right. by intros [_ (e' & ? & _)]. }
  destruct (Redis.e_value e) as [|b bs] eqn:Hv.
  - right. intros [_ (e' & [= <-] & Hne)]. done.
  - left. split; [done |]. exists e. by rewrite Hv.
Qed.

(** What a completed loop returns: the records of the readable keys, in order. *)
Lemma list_loop_ok config d keys tuples :
  list_loop config d keys = Ok tuples →
  ∃ ks, ks `sublist_of` keys ∧ Forall2 (from_key config d) ks tuples ∧
        (∀ key, key ∈ ks → readable d key) ∧
        (∀ key, key ∈ keys → readable d key → key ∈ ks).
Proof.
  revert tuples. induction keys as [|key keys IH]; intros tuples Hl.
  - injection Hl as <-. exists []. split; [done |]. split; [constructor |].
    split; intros key Hk; by apply elem_of_nil in Hk.
  - destruct (readable_dec d key) as [Hr | Hn].
    + destruct Hr as [He (e & Hd & Hv)].
      rewrite (list_loop_read _ _ _ _ e He Hd Hv) in Hl.
      destruct (loads (Redis.e_value e)) as [data|] eqn:Hdata; [| done].
      destruct (make_tuple data config) as [tup|] eqn:Htup; [| done].
      simpl in Hl.
      destruct (list_loop config d keys) as [rest|] eqn:Hrest; [| done].
      injection Hl as <-.
      destruct (IH rest eq_refl) as (ks & Hsub & Hall & Hin & Hcomp).
      exists (key :: ks). split; [| split; [| split]].
      * by apply sublist_skip.
      * constructor; [| done]. by exists e, data.
      * intros k [-> | Hk]%elem_of_cons; [| by apply Hin]. split; eauto.
      * intros k [-> | Hk]%elem_of_cons Hr; [apply elem_of_cons; by left |].
        apply elem_of_cons. right. by apply Hcomp.
    + rewrite (list_loop_skip _ _ _ _ Hn) in Hl.
      destruct (IH tuples Hl) as (ks & Hsub & Hall & Hin & Hcomp).
      exists ks. split; [by apply sublist_cons |]. split; [done |]. split; [done |].
      intros k [-> | Hk]%elem_of_cons Hr; [done | by apply Hcomp].
Qed.

(** A readable key whose bytes do not unpickle makes the loop raise. *)
Lemma list_loop_corrupt config d keys key e :
  key ∈ keys → readable d key → d !! key = Some e →
  loads (Redis.e_value e) = None →
  ∃ ex, list_loop config d keys = Raise ex.
Proof.
  intros Hin Hr Hd Hload. induction keys as [|k keys IH].
  - by apply elem_of_nil in Hin.
  - apply elem_of_cons in Hin as [<- | Hin].
    + destruct Hr as [He (e' & Hd' & Hv)].
      rewrite (list_loop_read _ _ _ _ e' He Hd' Hv).
      rewrite Hd in Hd'. injection Hd' as <-. rewrite Hload. by eexists.
    + destruct (IH Hin) as [ex Hex].
      destruct (readable_dec d k) as [[He (e' & Hd' & Hv)] | Hn].
      * rewrite (list_loop_read _ _ _ _ e' He Hd' Hv).
        destruct (loads (Redis.e_value e')) as [data|]; [| by eexists].
        destruct (make_tuple data config) as [tup|ex']; simpl; [| by eexists].
        rewrite Hex. by eexists.
      * rewrite (list_loop_skip _ _ _ _ Hn). by eexists.
Qed.

Lemma list_unfold self config limit d :
  list_ self config limit d =
  (tuples ← list_loop config d (Redis.keys (list_pattern self config) d);
   Ok match limit with
      | Some n => if n =? 0 then tuples else slice_to n tuples
      | None => tuples
      end).
Proof. reflexivity. Qed.

Lemma slice_to_subseteq {A} (n : Z) (l : list A) : slice_to n l ⊆ l.
Proof. unfold slice_to. destruct (0 <=? n); apply subseteq_take. Qed.

Lemma Forall2_elem_of_r {A B} (R : A → B → Prop) (l : list A) (k : list B) (y : B) :
  Forall2 R l k → y ∈ k → ∃ x, x ∈ l ∧ R x y.
Proof.
  induction 1 as [|x y' l k HR _ IH]; intros Hy.
  - by apply elem_of_nil in Hy.
  - apply elem_of_cons in Hy as [-> | Hy].
    + exists x. split; [apply elem_of_cons; by left | done].
    + destruct (IH Hy) as (x' & Hx' & HR'). exists x'.
      split; [apply elem_of_cons; by right | done].
Qed.

Lemma read_keys_cons d key keys :
  (readable d key → read_keys d (key :: keys) = key :: read_keys d keys) ∧
  (¬ readable d key → read_keys d (key :: keys) = read_keys d keys).
Proof.
  unfold read_keys, readable. cbn [List.filter].
  destruct (PyStr.endswith ":latest" key); cbn [negb andb].
  { split; [by intros [? _] | done]. }
  destruct (d !! key) as [e|].
  2: { split; [by intros [_ (e' & ? & _)] | done]. }
  destruct (Redis.e_value e) as [|b bs] eqn:Hv.
  - split; [| done]. intros [_ (e' & [= <-] & Hne)]. done.
  - split; [done |]. intros Hn. exfalso. apply Hn. split; [done |].
    exists e. by rewrite Hv.
Qed.

Lemma read_keys_spec d keys key :
  key ∈ read_keys d keys ↔ key ∈ keys ∧ readable d key.
Proof.
  induction keys as [|k keys IH].
  { split; [intros Hk | intros [Hk _]]; by apply elem_of_nil in Hk. }
  destruct (read_keys_cons d k keys) as [Hyes Hno].
  destruct (readable_dec d k) as [Hr | Hn].
  - rewrite (Hyes Hr), !elem_of_cons, IH. split.
    + intros [-> | [Hk Hrk]]; [split; [by left | done] | split; [by right | done]].
    + intros [[-> | Hk] Hrk]; [by left | by right].
  - rewrite (Hno Hn), elem_of_cons, IH. split.
    + intros [Hk Hrk]. split; [by right | done].
    + intros [[-> | Hk] Hrk]; [done | done].
Qed.

Lemma read_keys_NoDup d keys : NoDup keys → NoDup (read_keys d keys).
Proof.
  intros Hnd. unfold read_keys. by apply NoDup_ListNoDup, List.NoDup_filter, NoDup_ListNoDup.
Qed.

(** A completed loop returns the records of the keys it reads, one for
    each, in order. *)
Lemma list_loop_keys config d keys tuples :
  list_loop config d keys = Ok tuples →
  Forall2 (from_key config d) (read_keys d keys) tuples.
Proof.
  revert tuples. induction keys as [|key keys IH]; intros tuples Hl.
  - injection Hl as <-. constructor.
  - destruct (read_keys_cons d key keys) as [Hyes Hno].
    destruct (readable_dec d key) as [Hr | Hn].
    + rewrite (Hyes Hr). destruct Hr as [He (e & Hd & Hv)].
      rewrite (list_loop_read _ _ _ _ e He Hd Hv) in Hl.
      destruct (loads (Redis.e_value e)) as [data|] eqn:Hdata; [| done].
      destruct (make_tuple data config) as [tup|] eqn:Htup; [| done].
      simpl in Hl.
      destruct (list_loop config d keys) as [rest|] eqn:Hrest; [| done].
      injection Hl as <-. constructor; [by exists e, data | by apply IH].
    + rewrite (Hno Hn). rewrite (list_loop_skip _ _ _ _ Hn) in Hl. by apply IH.
Qed.

(** X24. Whenever [list] returns, with no limit or a positive one, its
    items are the records of the session's keys that the loop reads, one
    item per key and in the order of [KEYS], none of them the latest alias:
    all of them with no limit, and the first [limit] of them with a
    positive limit, hence at most that many. *)
Theorem list_specific_and_limited self config limit d :
  (∀ n, limit = Some n → 0 < n) →
  list_contract self config limit d.
Proof.
  intros Hpos tuples Hl. rewrite list_unfold in Hl.
  destruct (list_loop config d (Redis.keys (list_pattern self config) d))
    as [all|] eqn:Hloop; [| done].
  simpl in Hl. injection Hl as <-.
  pose proof (list_loop_keys _ _ _ _ Hloop) as HF.
  cbv zeta.
  set (ks := read_keys d (Redis.keys (list_pattern self config) d)) in *.
  assert (Hnd : NoDup ks) by apply read_keys_NoDup, keys_NoDup.
  assert (Hvis : ∀ key, key ∈ ks → visited self config d key ∧ key ≠ latest_key self config).
  { intros key Hk. apply read_keys_spec in Hk as [Hk Hr]. split; [by split |].
    intros ->. destruct Hr as [He _]. by rewrite latest_key_endswith in He. }
  destruct limit as [n|].
  - specialize (Hpos n eq_refl).
    replace (n =? 0) with false by lia.
    unfold slice_to. replace (0 <=? n) with true by lia.
    split; [by apply Forall2_take |]. split; [| split; [| split]].
    + eapply sublist_NoDup; [exact Hnd | apply sublist_take].
    + intros key Hk. apply Hvis.
      eapply elem_of_sublist; [exact Hk | apply sublist_take].
    + done.
    + intros m [= <-]. rewrite length_take. lia.
  - split; [done |]. split; [done |]. split; [done |]. split; [| done].
    intros _ key [Hk Hr]. by apply read_keys_spec.
Qed.

(** C9 (as amended). If the loop of [list] reaches a record whose bytes do
    not unpickle, the exception leaves the call: [list] raises and returns
    no checkpoints, whatever the limit and whatever else is stored. *)
Theorem list_aborts_on_corrupt self config limit d key e :
  visited self config d key → d !! key = Some e →
  loads (Redis.e_value e) = None →
  ∃ ex, list_ self config limit d = Raise ex.
Proof.
  intros [Hk Hr] Hd Hload. rewrite list_unfold.
  destruct (list_loop_corrupt config d _ key e Hk Hr Hd Hload) as [ex Hex].
  exists ex. by rewrite Hex.
Qed.

End ListFacts.

(** ** Sessions *)

Section IsolationFacts.
Context `{Pickle}.
Import RedisCheckpointSaver.

Implicit Types (self : t) (config : Config) (d : Redis.db) (calls : list put_call).

Lemma written_by_mono self calls calls' d :
  calls ⊆ calls' → written_by self calls d → written_by self calls' d.
Proof.
  intros Hsub Hw key e Hd.
  destruct (Hw key e Hd) as (c & s & Hc & Hrest). exists c, s. split; [by apply Hsub | done].
Qed.

Lemma written_by_put self calls d c :
  written_by self calls d →
  written_by self (calls ++ [c])
    (put self (pc_config c) (pc_checkpoint c) (pc_metadata c) d).2.
Proof.
  intros Hw.
  destruct (dumps (put_data (pc_config c) (pc_checkpoint c) (pc_metadata c)))
    as [serialized|] eqn:Hs.
  - rewrite (put_unfold _ _ _ _ _ _ Hs). simpl. unfold Redis.setex.
    intros key e. rewrite !lookup_insert.
    repeat case_decide; subst.
    + intros [= <-]. exists c, serialized.
      split; [apply elem_of_app; right; by apply list_elem_of_singleton |]. auto.
    + intros [= <-]. exists c, serialized.
      split; [apply elem_of_app; right; by apply list_elem_of_singleton |]. auto.
    + intros Hd. destruct (Hw key e Hd) as (c' & s' & Hc' & Hrest).
      exists c', s'. split; [apply elem_of_app; by left | done].
  - unfold put. rewrite Hs. simpl.
    eapply written_by_mono; [| exact Hw]. intros x Hx. apply elem_of_app. by left.
Qed.

Lemma written_by_replay self calls pre d :
  written_by self pre d → written_by self (pre ++ calls) (replay self calls d).
Proof.
  revert pre d. induction calls as [|c calls IH]; intros pre d Hw.
  - by rewrite app_nil_r.
  - simpl. replace (pre ++ c :: calls) with ((pre ++ [c]) ++ calls)
      by (by rewrite <- app_assoc).
    apply IH. by apply written_by_put.
Qed.

Lemma written_by_replay_empty self calls :
  written_by self calls (replay self calls ∅).
Proof.
  apply (written_by_replay self calls [] ∅). intros key e Hd.
  by rewrite lookup_empty in Hd.
Qed.

(** The pattern of [list]: a prefix ending in the session id and a colon,
    followed by [*]. *)
Lemma list_pattern_prefix self config :
  ∃ rest,
    list_pattern self config =
    (namespace self +:+ ":" +:+ get_thread_id config +:+ ":" +:+ rest) +:+ "*" ∧
    (Redis.literal (get_checkpoint_ns config) = true → Redis.literal rest = true).
Proof.
  unfold list_pattern. destruct (PyStr.truthy (get_checkpoint_ns config)).
  - exists (get_checkpoint_ns config +:+ ":"). split.
    + by rewrite !app_assoc_s.
    + intros Hl. by rewrite literal_app, Hl.
  - exists "". split; [| done]. by rewrite !app_assoc_s.
Qed.

(** A key of one session matched by the pattern of another: the two session
    ids are the same, when neither contains a colon. *)
Lemma pattern_matches_own_session self config (thread ns : string) (id : option string) :
  Redis.literal (namespace self) = true →
  Redis.literal (get_thread_id config) = true →
  Redis.literal (get_checkpoint_ns config) = true →
  PyStr.has_char ":" (get_thread_id config) = false →
  PyStr.has_char ":" thread = false →
  Redis.glob_match (list_pattern self config) (_make_key self thread ns id) = true →
  thread = get_thread_id config.
Proof.
  intros HN HA Hns HcA Hct Hm.
  destruct (list_pattern_prefix self config) as (rest & Hp & Hrest).
  rewrite Hp, glob_match_prefix in Hm.
  2: { rewrite !literal_app, HN, HA, (Hrest Hns). reflexivity. }
  apply startswith_spec in Hm as [r Hr].
  rewrite make_key_shape, !app_assoc_s in Hr.
  apply (inj (String.append _)) in Hr.
  change (":" +:+ ?x) with (String ":" x) in Hr.
  injection Hr as Hr.
  apply (app_sep_inj ":") in Hr as [Ht _]; done.
Qed.

(** X25. For two session ids that contain no colon, with the listing
    session's id and checkpoint namespace and the saver's namespace free of
    glob metacharacters: after any interleaving of [put] calls for the two
    sessions on an empty store, every item [list] returns for one session
    carries the checkpoint and metadata of a [put] call made for that
    session. *)
Theorem sessions_isolated self (A B : string) calls config limit :
  Redis.literal (namespace self) = true →
  Redis.literal A = true →
  Redis.literal (get_checkpoint_ns config) = true →
  PyStr.has_char ":" A = false →
  PyStr.has_char ":" B = false →
  isolated self A B calls config limit.
Proof.
  intros HN HA Hns HcA HcB _ Hcfg Hcalls tuples Hl tup Htup.
  rewrite list_unfold in Hl.
  destruct (list_loop config (replay self calls ∅)
              (Redis.keys (list_pattern self config) (replay self calls ∅)))
    as [all|] eqn:Hloop; [| done].
  simpl in Hl. injection Hl as <-.
  assert (Hall : tup ∈ all).
  { destruct limit as [n|]; [| done].
    destruct (n =? 0); [done |]. by apply (slice_to_subseteq n all). }
  destruct (list_loop_ok _ _ _ _ Hloop) as (ks & Hsub & HF & _ & _).
  destruct (Forall2_elem_of_r _ _ _ _ HF Hall) as (key & Hk & e & data & Hd & Hload & Hmk).
  assert (Hkeys : key ∈ Redis.keys (list_pattern self config) (replay self calls ∅))
    by (eapply elem_of_sublist; [exact Hk | exact Hsub]).
  apply elem_of_keys in Hkeys as [Hm _].
  destruct (written_by_replay_empty self calls key e Hd)
    as (c & serialized & Hc & Hs & Hv & Hkey).
  exists c. split; [done |].
  rewrite Hv, (loads_dumps _ _ Hs) in Hload. injection Hload as <-.
  injection Hmk as <-. simpl. split; [| done].
  assert (Hct : PyStr.has_char ":" (get_thread_id (pc_config c)) = false)
    by (destruct (Hcalls c Hc) as [-> | ->]; done).
  rewrite <- Hcfg in HA, HcA. rewrite <- Hcfg.
  destruct Hkey as [-> | ->];
    eapply (pattern_matches_own_session self config); eauto.
Qed.

End IsolationFacts.

(** ** The coverage analyzer *)

Section AnalyzerFacts.
Import ConversationAnalyzerTool.

#[local] Arguments String.append !_ _ / : simpl nomatch.

(** A keyword cannot begin before a separator it does not contain and end
    after it. *)
Lemma startswith_app_sep (c : ascii) (k a b : string) :
  PyStr.has_char c k = false →
  PyStr.startswith k (a +:+ String c b) = PyStr.startswith k a.
Proof.
  revert a. induction k as [|x k IH]; intros a Hk; [done |].
  simpl in Hk. apply orb_false_iff in Hk as [Hx Hk].
  destruct a as [|y a]; simpl.
  - by rewrite Hx.
  - by rewrite IH.
Qed.

Lemma contains_app_sep (c : ascii) (k a b : string) :
  PyStr.has_char c k = false →
  PyStr.contains k (a +:+ String c b) = PyStr.contains k a || PyStr.contains k b.
Proof.
  intros Hk. induction a as [|y a IH].
  - change ("" +:+ String c b) with (String c b).
    change (PyStr.contains k (String c b))
      with (PyStr.startswith k ("" +:+ String c b) || PyStr.contains k b).
    rewrite startswith_app_sep by done.
    by destruct k.
  - change (String y a +:+ String c b) with (String y (a +:+ String c b)).
    change (PyStr.contains k (String y (a +:+ String c b)))
      with (PyStr.startswith k (String y a +:+ String c b) ||
            PyStr.contains k (a +:+ String c b)).
    rewrite startswith_app_sep, IH by done.
    change (PyStr.contains k (String y a))
      with (PyStr.startswith k (String y a) || PyStr.contains k a).
    by rewrite orb_assoc.
Qed.

Lemma contains_empty (k : string) : k ≠ "" → PyStr.contains k "" = false.
Proof. by destruct k. Qed.

(** A space-free keyword occurs in the joined text exactly when it occurs
    in one of the joined messages. *)
Lemma contains_join (k : string) (texts : list string) :
  k ≠ "" → PyStr.has_char " " k = false →
  PyStr.contains k (PyStr.join " " texts) = true ↔
  ∃ s, s ∈ texts ∧ PyStr.contains k s = true.
Proof.
  intros Hne Hk. induction texts as [|x texts IH].
  - change (PyStr.join " " []) with "". rewrite contains_empty by done.
    split; [done |].
    intros (s & Hs & _). by apply elem_of_nil in Hs.
  - destruct texts as [|y texts].
    + change (PyStr.join " " [x]) with x. split.
      * intros Hx. exists x. split; [apply elem_of_cons; by left | done].
      * intros (s & Hs & Hc). apply list_elem_of_singleton in Hs. by subst.
    + change (PyStr.join " " (x :: y :: texts))
        with (x +:+ String " " (PyStr.join " " (y :: texts))).
      rewrite contains_app_sep, orb_true_iff, IH by done. split.
      * intros [Hx | (s & Hs & Hc)].
        -- exists x. split; [apply elem_of_cons; by left | done].
        -- exists s. split; [apply elem_of_cons; by right | done].
      * intros (s & Hs & Hc). apply elem_of_cons in Hs as [-> | Hs]; [by left |].
        right. by exists s.
Qed.

Lemma check_mentions_spec (conversation : list message) (keywords : list string) :
  Forall plain_keyword keywords →
  _check_mentions conversation keywords = true ↔ spec_covered conversation keywords.
Proof.
  intros Hplain. unfold _check_mentions, spec_covered.
  rewrite existsb_exists. split.
  - intros (k & Hk & Hc). apply list_elem_of_In in Hk.
    destruct (proj1 (Forall_forall _ _) Hplain k Hk) as (Hne & Hsp & Hlow).
    apply contains_join in Hc as (s & Hs & Hc); [| done | done].
    apply list_elem_of_In, in_map_iff in Hs as (msg & <- & Hmsg).
    apply filter_In in Hmsg as [Hmsg Hu].
    exists msg, k. split; [by apply list_elem_of_In |]. split; [done |].
    split; [done |]. unfold mentions_ci. by rewrite Hlow.
  - intros (msg & k & Hmsg & Hu & Hk & Hc).
    destruct (proj1 (Forall_forall _ _) Hplain k Hk) as (Hne & Hsp & Hlow).
    exists k. split; [by apply list_elem_of_In |].
    apply contains_join; [done | done |].
    exists (PyStr.lower (content msg)). split.
    + apply list_elem_of_In, in_map_iff. exists msg. split; [done |].
      apply filter_In. split; [by apply list_elem_of_In | done].
    + unfold mentions_ci in Hc. by rewrite Hlow in Hc.
Qed.

Lemma dimensions_plain (name : string) (keywords : list string) :
  (name, keywords) ∈ dimensions → Forall plain_keyword keywords.
Proof.
  unfold dimensions. intros Hin.
  repeat (apply elem_of_cons in Hin as [[= -> ->] | Hin];
          [repeat constructor; done |]).
  by apply elem_of_nil in Hin.
Qed.

(** On the five values the score can take, rounding to two places changes
    nothing and the readiness test reads the same before and after. *)
Lemma round2_quarters (b1 b2 b3 b4 : bool) :
  let cov := [("taste_anchors", b1); ("style_preference", b2);
              ("narrative_desire", b3); ("consumption_habit", b4)] in
  (round2 (raw_score cov) ==
   inject_Z (Z.of_nat (length (List.filter (λ v, v) (map snd cov)))) / inject_Z 4)%Q ∧
  (Qle_bool (3 # 4) (raw_score cov) = true ↔ (3 # 4 <= round2 (raw_score cov))%Q).
Proof.
  destruct b1, b2, b3, b4; (split; [by vm_compute | ]);
    (split; [intros Hq; vm_compute in Hq |- *; congruence
            | intros Hq; vm_compute in Hq |- *; congruence]).
Qed.

(** C8 (as amended). For every non-empty history the analyzer marks each
    dimension covered exactly when some user-authored message contains one
    of its keywords without regard to case, returns the covered count over
    the number of dimensions as the score, and reports readiness exactly
    when there are at least 8 user turns and the score is at least 0.75. *)
Theorem analyzer_on_nonempty_history (conversation : list message) :
  conversation ≠ [] → spec_result conversation (_run conversation).
Proof.
  intros Hne. destruct conversation as [|m conversation]; [done |].
  unfold _run. cbv beta iota zeta. set (h := m :: conversation).
  unfold spec_result. cbn [turn_count coverage coverage_score ready_for_summary].
  destruct (round2_quarters
              (_check_mentions h ["book"; "author"; "story"; "novel"])
              (_check_mentions h ["prose"; "writing"; "style"; "voice"])
              (_check_mentions h ["wish"; "want"; "story"; "plot"])
              (_check_mentions h ["read"; "time"; "daily"; "pages"])) as [Hround Hready].
  split; [done |]. split; [| split].
  - intros name keywords Hin.
    pose proof (dimensions_plain name keywords Hin) as Hplain.
    exists (_check_mentions h keywords). split.
    + unfold dimensions in Hin.
      repeat (apply elem_of_cons in Hin as [[= -> ->] | Hin]; [reflexivity |]).
      by apply elem_of_nil in Hin.
    + by apply check_mentions_spec.
  - eexists. split; [reflexivity |]. exact Hround.
  - rewrite andb_true_iff, Nat.leb_le, Hready. split.
    + intros [Ht Hq]. split; [done |]. eexists. by split.
    + intros [Ht (q & [= <-] & Hq)]. done.
Qed.

End AnalyzerFacts.

(** ** The conversation loop *)

Section CliFacts.
Import Cli.

(** A pass that is a turn: input that is neither empty nor a quit command,
    answered by the agent. *)
Lemma step_turn st (user_input : string) (r : response) :
  PyStr.truthy user_input = true → is_quit user_input = false →
  step st (Input user_input (Replies r)) =
  let st' status :=
    {| conversation_history :=
         conversation_history st ++ [user_entry user_input; assistant_entry r];
       turn_count := turn_count st + 1;
       status := status |} in
  if r_is_complete r || (12 <=? turn_count st + 1)%nat
  then (st' complete, Complete) else (st' in_progress, Continue).
Proof. intros Hu Hq. unfold step. by rewrite Hu, Hq. Qed.

Lemma step_turn_raises st (user_input : string) (r : response) :
  PyStr.truthy user_input = true → is_quit user_input = false →
  step st (Input user_input (RepliesBlockRaises r)) =
  let st' :=
    {| conversation_history :=
         conversation_history st ++ [user_entry user_input; assistant_entry r];
       turn_count := turn_count st + 1;
       status := in_progress |} in
  if r_is_complete r || (12 <=? turn_count st + 1)%nat
  then (st', CompleteRaised) else (st', Continue).
Proof. intros Hu Hq. unfold step. by rewrite Hu, Hq. Qed.

Lemma step_no_message st (user_input : string) :
  PyStr.truthy user_input = true → is_quit user_input = false →
  step st (Input user_input RepliesNoMessage) =
  ({| conversation_history := conversation_history st ++ [user_entry user_input];
      turn_count := turn_count st;
      status := status st |}, Continue).
Proof. intros Hu Hq. unfold step. by rewrite Hu, Hq. Qed.

(** A pass on input that is empty or a quit command does not reach the
    agent. *)
Lemma step_no_turn st (user_input : string) (agent : agent_outcome) :
  PyStr.truthy user_input = false ∨ is_quit user_input = true →
  step st (Input user_input agent) =
  if negb (PyStr.truthy user_input) then (st, Continue)
  else ({| conversation_history := conversation_history st;
           turn_count := turn_count st;
           status := early_exit |}, EarlyExit).
Proof.
  intros [Hu | Hq]; unfold step.
  - by rewrite Hu.
  - rewrite Hq. by destruct (PyStr.truthy user_input).
Qed.

Lemma step_running st ev :
  running st → block_finishes ev →
  match step st ev with
  | (st', Continue) => running st'
  | (st', Complete) => status st' = complete ∧ (turn_count st' ≤ 12)%nat
  | (st', CompleteRaised) => False
  | (st', _) => status st' ≠ complete ∧ (turn_count st' < 12)%nat
  end.
Proof.
  intros [Hs Ht] Hb. destruct ev as [|user_input agent].
  { simpl. split; [by discriminate | done]. }
  destruct (PyStr.truthy user_input) eqn:Hu.
  2: { rewrite step_no_turn by (by left). rewrite Hu. by split. }
  destruct (is_quit user_input) eqn:Hq.
  { rewrite step_no_turn by (by right). rewrite Hu. simpl.
    split; [by discriminate | done]. }
  destruct agent as [r| | |r].
  - rewrite (step_turn st user_input r Hu Hq). cbv zeta.
    destruct (r_is_complete r || (12 <=? turn_count st + 1)%nat) eqn:Hc.
    + cbn [status turn_count]. split; [done | lia].
    + apply orb_false_iff in Hc as [_ Hc]. apply Nat.leb_gt in Hc.
      unfold running. cbn [status turn_count]. split; [done | lia].
  - unfold step. rewrite Hu, Hq. by split.
  - rewrite (step_no_message st user_input Hu Hq). by split.
  - destruct Hb.
Qed.

(** While no completion block raises, the loop ends at the first pass whose
    test of line 219 holds, so the count stays within the ceiling. *)
Lemma run_ceiling st evs :
  running st → Forall block_finishes evs →
  (turn_count (run st evs) ≤ 12)%nat ∧
  (turn_count (run st evs) = 12%nat → status (run st evs) = complete).
Proof.
  revert st. induction evs as [|ev evs IH]; intros st Hr Hb.
  - destruct Hr as [Hs Ht]. simpl. split; [lia | intros; lia].
  - apply Forall_cons in Hb as [Hev Hb].
    simpl. pose proof (step_running st ev Hr Hev) as Hstep.
    destruct (step st ev) as [st' []]; [by apply IH | | | | destruct Hstep];
      destruct Hstep as [Hs Ht]; split; first [lia | done | intros; lia].
Qed.



End CliFacts.

(** ** Concrete runs *)

Section Runs.
Import RedisCheckpointSaver Examples.

Lemma db_a_keys :
  checkpoint_key default_saver config_a cp1 = "langgraph:checkpoint:a:c1" ∧
  latest_key default_saver config_a = "langgraph:checkpoint:a:latest".
Proof. split; reflexivity. Qed.


(** A [put] cut between its two commands raises, with the record under the
    checkpoint's key and nothing under the latest key. *)
Lemma put_interrupted_raises :
  ∃ d1, put_interrupted 1 default_saver config_a cp1 md1 ∅ = (Raise ConnectionError, d1) ∧
        d1 !! "langgraph:checkpoint:a:c1" =
          Some (Redis.Entry 86400 (RefPickle.pickled (put_data config_a cp1 md1))) ∧
        d1 !! "langgraph:checkpoint:a:latest" = None.
Proof. eexists. split; [reflexivity |]. split; reflexivity. Qed.

Lemma put_then_get_latest_witness :
  ∃ tup, get_tuple default_saver config_a db_a = Ok (Some tup) ∧
         t_checkpoint tup = cp1 ∧ t_metadata tup = md1.
Proof.
  apply (@put_then_get_latest RefPickle.ref_pickle default_saver config_a config_a cp1 md1 ∅
           (RefPickle.pickled (put_data config_a cp1 md1)));
    reflexivity.
Defined.

(** C4. A limit of 0 is not applied: [if limit:] takes 0 for no limit, so
    the listing with limit 0 is the listing without one.  Of a session
    holding one checkpoint, [list] with limit 0 returns that checkpoint,
    one item where the limit allows none, and so does not meet the
    contract of a limited listing. *)
Theorem list_limit_zero_returns_all :
  (∀ (P : Pickle) self config d,
     list_ self config (Some 0) d = list_ self config None d) ∧
  (∃ tup, list_ default_saver config_a (Some 0) db_a = Ok [tup] ∧
          t_checkpoint tup = cp1) ∧
  ¬ list_contract default_saver config_a (Some 0) db_a.
Proof.
  assert (Hl : ∃ tup, list_ default_saver config_a (Some 0) db_a = Ok [tup] ∧
                      t_checkpoint tup = cp1)
    by (eexists; split; [vm_compute; reflexivity | reflexivity]).
  split; [reflexivity |]. split; [exact Hl |].
  intros Hc. destruct Hl as (tup & Hl & _).
  destruct (Hc [tup] Hl) as (_ & _ & _ & _ & Hlen). specialize (Hlen 0 eq_refl).
  simpl in Hlen. lia.
Qed.

Lemma list_specific_and_limited_witness :
  list_contract default_saver config_a (Some 1) db_a.
Proof.
  apply (@list_specific_and_limited RefPickle.ref_pickle default_saver config_a (Some 1) db_a).
  intros n [= <-]. lia.
Defined.

(** C5. Keys are the parts joined with colons and the pattern of [list]
    is the session's prefix followed by [*], with nothing escaped: after
    puts for the distinct sessions ["s"] and ["s:x"], the listing of ["s"]
    holds, beside its own checkpoint, the checkpoint written for ["s:x"],
    so that session ["s"] is not isolated from session ["s:x"]. *)
Theorem list_returns_other_session :
  (∃ t1 t2,
     list_ default_saver (config_for "s") None (replay default_saver interleaved ∅)
       = Ok [t1; t2] ∧
     t_checkpoint t1 = cp1 ∧ configurable (t_config t1) ≫= thread_id = Some "s" ∧
     t_checkpoint t2 = cp2 ∧ configurable (t_config t2) ≫= thread_id = Some "s:x") ∧
  ¬ isolated default_saver "s" "s:x" interleaved (config_for "s") None.
Proof.
  assert (Hl : ∃ t1 t2,
             list_ default_saver (config_for "s") None
               (replay default_saver interleaved ∅) = Ok [t1; t2] ∧
             t_checkpoint t1 = cp1 ∧ configurable (t_config t1) ≫= thread_id = Some "s" ∧
             t_checkpoint t2 = cp2 ∧ configurable (t_config t2) ≫= thread_id = Some "s:x")
    by (do 2 eexists; split; [vm_compute; reflexivity |];
        split; [reflexivity |]; split; [reflexivity |]; split; reflexivity).
  split; [exact Hl |].
  intros Hiso. destruct Hl as (t1 & t2 & Hl & _ & _ & Ht2 & _).
  destruct (Hiso ltac:(discriminate) eq_refl) with (tuples := [t1; t2]) (tup := t2)
    as (c & Hc & Hthread & Hcp & _).
  - intros c Hc. unfold interleaved in Hc.
    apply elem_of_cons in Hc as [-> | Hc]; [left; reflexivity |].
    apply elem_of_cons in Hc as [-> | Hc]; [right; reflexivity |].
    apply elem_of_cons in Hc as [-> | Hc]; [left; reflexivity |].
    apply elem_of_nil in Hc. destruct Hc.
  - exact Hl.
  - apply elem_of_cons. right. apply elem_of_cons. left. reflexivity.
  - rewrite Ht2 in Hcp. unfold interleaved in Hc.
    apply elem_of_cons in Hc as [-> | Hc]; [discriminate Hcp |].
    apply elem_of_cons in Hc as [-> | Hc]; [discriminate Hthread |].
    apply elem_of_cons in Hc as [-> | Hc]; [discriminate Hcp |].
    apply elem_of_nil in Hc. destruct Hc.
Qed.

Lemma sessions_isolated_witness :
  isolated default_saver "s" "t"
    [PutCall (config_for "s") cp1 md1; PutCall (config_for "t") cp2 md2]
    (config_for "s") None.
Proof.
  apply (@sessions_isolated RefPickle.ref_pickle default_saver "s" "t"); reflexivity.
Defined.

(** C9, the claim as stated fails: beside a record that is not a pickle,
    the listing raises and the readable checkpoint is not returned. *)
Lemma list_corrupt_aborts_all : ¬ list_skips_corrupt default_saver config_a db_corrupt.
Proof.
  intros Hskip.
  destruct (Hskip "langgraph:checkpoint:a:c0" (Redis.Entry 86400 garbage))
    as (tuples & Hl & _).
  - split.
    + apply elem_of_keys. split; [by vm_compute |]. eexists. apply lookup_insert_eq.
    + split; [reflexivity |]. eexists. split; [apply lookup_insert_eq | done].
  - apply lookup_insert_eq.
  - reflexivity.
  - vm_compute in Hl. discriminate.
Qed.

Lemma list_aborts_on_corrupt_witness :
  ∃ ex, list_ default_saver config_a None db_corrupt = Raise ex.
Proof.
  apply (@list_aborts_on_corrupt RefPickle.ref_pickle default_saver config_a None db_corrupt
           "langgraph:checkpoint:a:c0" (Redis.Entry 86400 garbage)).
  - split.
    + apply elem_of_keys. split; [by vm_compute |]. eexists. apply lookup_insert_eq.
    + split; [reflexivity |]. eexists. split; [apply lookup_insert_eq | done].
  - apply lookup_insert_eq.
  - reflexivity.
Defined.


(** A completion block that raises on the twelfth turn sends the loop round
    again: the interview ends complete with 13 turns counted. *)
Lemma run_past_ceiling :
  Cli.turn_count (Cli.run Cli.initial thirteen_turns) = 13%nat ∧
  Cli.status (Cli.run Cli.initial thirteen_turns) = Cli.complete.
Proof. split; reflexivity. Qed.

(** A response without its message leaves the user's entry in the history
    and the count where it was. *)
Lemma run_unpaired_entry :
  let st := Cli.run Cli.initial [Cli.Input "I read daily" Cli.RepliesNoMessage] in
  Cli.conversation_history st = [user_says "I read daily"] ∧ Cli.turn_count st = 0%nat.
Proof. split; reflexivity. Qed.



(** C8, the claim as stated fails: on the empty history the analyzer
    returns no score at all. *)
Lemma analyzer_empty_history_no_score :
  ¬ ConversationAnalyzerTool.spec_result [] (ConversationAnalyzerTool._run []).
Proof.
  intros (_ & _ & (q & Hq & _) & _). simpl in Hq. discriminate Hq.
Qed.

Lemma analyzer_on_nonempty_history_witness :
  ConversationAnalyzerTool.spec_result
    [user_says "I love a good STORY"]
    (ConversationAnalyzerTool._run [user_says "I love a good STORY"]).
Proof.
  apply (analyzer_on_nonempty_history [user_says "I love a good STORY"]).
  discriminate.
Defined.

End Runs.

(** * Further properties of the checkpoint store *)

Section StoreMore.
Context `{Pickle}.
Import RedisCheckpointSaver.

Implicit Types (self : t) (config : Config) (checkpoint : Checkpoint)
  (metadata : Metadata) (d : Redis.db).

Lemma make_key_last_part self (thread ns : string) (id : option string) :
  _make_key self thread ns id =
  namespace self +:+ ":" +:+ thread +:+ ":" +:+
  (if PyStr.truthy ns then ns +:+ ":" +:+ last_part id else last_part id).
Proof. apply make_key_shape. Qed.

Lemma has_char_app_sep (c : ascii) (a b : string) :
  PyStr.has_char c (a +:+ String c b) = true.
Proof.
  induction a as [|x a IH].
  - change ("" +:+ String c b) with (String c b). simpl.
    by rewrite Ascii.eqb_refl.
  - change (String x a +:+ String c b) with (String x (a +:+ String c b)).
    simpl. rewrite IH. apply orb_true_r.
Qed.

(** Keys of colon-free sessions that are equal belong to the same session
    and have the same rest. *)
Lemma make_key_thread_inj self (t1 t2 ns1 ns2 : string) (id1 id2 : option string) :
  PyStr.has_char ":" t1 = false → PyStr.has_char ":" t2 = false →
  _make_key self t1 ns1 id1 = _make_key self t2 ns2 id2 →
  t1 = t2 ∧
  (if PyStr.truthy ns1 then ns1 +:+ ":" +:+ last_part id1 else last_part id1) =
  (if PyStr.truthy ns2 then ns2 +:+ ":" +:+ last_part id2 else last_part id2).
Proof.
  intros H1 H2 Heq. rewrite !make_key_last_part in Heq.
  apply (inj (String.append _)) in Heq.
  change (":" +:+ ?x) with (String ":" x) in Heq. injection Heq as Heq.
  by apply (app_sep_inj ":") in Heq.
Qed.

(** X1. [put] touches two keys only: every other key of the store keeps
    its entry, whether or not pickling succeeds. *)
Theorem put_leaves_other_keys self config checkpoint metadata d (key : string) :
  key ≠ checkpoint_key self config checkpoint →
  key ≠ latest_key self config →
  (put self config checkpoint metadata d).2 !! key = d !! key.
Proof.
  intros Hk Hl. by apply put_lookup_other.
Qed.

(** X2. [put] is idempotent: repeating a call with the same arguments
    gives the same result and the same store as making it once. *)
Theorem put_idempotent self config checkpoint metadata d :
  put self config checkpoint metadata (put self config checkpoint metadata d).2 =
  put self config checkpoint metadata d.
Proof.
  destruct (dumps (put_data config checkpoint metadata)) as [serialized|] eqn:Hs.
  - rewrite !(put_unfold _ _ _ _ _ _ Hs). simpl. f_equal.
    unfold Redis.setex. apply map_eq. intros key.
    rewrite !lookup_insert. by repeat case_decide.
  - unfold put. by rewrite Hs.
Qed.

(** X3. Earlier checkpoints stay retrievable: after a [put] of one
    checkpoint and then of another with a different id, for the same
    session and namespace, [get_tuple] with the first id returns the first
    checkpoint and [get_tuple] without an id returns the second. *)
Theorem put_keeps_history self config config_id config_latest
    checkpoint1 metadata1 checkpoint2 metadata2 d (i1 : string) s1 s2 :
  dumps (put_data config checkpoint1 metadata1) = Some s1 →
  dumps (put_data config checkpoint2 metadata2) = Some s2 →
  cp_id checkpoint1 = Some i1 → PyStr.truthy i1 = true →
  i1 ≠ "latest" → i1 ≠ last_part (cp_id checkpoint2) →
  get_thread_id config_id = get_thread_id config →
  get_checkpoint_ns config_id = get_checkpoint_ns config →
  get_checkpoint_id config_id = Some i1 →
  get_thread_id config_latest = get_thread_id config →
  get_checkpoint_ns config_latest = get_checkpoint_ns config →
  get_checkpoint_id config_latest = None →
  let d' := (put self config checkpoint2 metadata2
               (put self config checkpoint1 metadata1 d).2).2 in
  (∃ tup, get_tuple self config_id d' = Ok (Some tup) ∧
          t_checkpoint tup = checkpoint1 ∧ t_metadata tup = metadata1) ∧
  (∃ tup, get_tuple self config_latest d' = Ok (Some tup) ∧
          t_checkpoint tup = checkpoint2 ∧ t_metadata tup = metadata2).
Proof.
  intros Hs1 Hs2 Hid Htr Hnl Hne Ht1 Hn1 Hi1 Ht2 Hn2 Hi2 d'. split.
  - destruct (get_tuple_of_put_data self config_id config checkpoint1 metadata1 d' s1)
      as (tup & Hg & Hc & Hm & _); [| done | by exists tup].
    assert (Hkey : resolved_key self config_id = checkpoint_key self config checkpoint1).
    { unfold resolved_key, checkpoint_key. by rewrite Ht1, Hn1, Hi1, Hid. }
    rewrite Hkey. unfold d'. rewrite put_lookup_other.
    + by apply put_lookup_checkpoint.
    + unfold checkpoint_key. rewrite !make_key_last_part.
      intros Heq. do 4 apply (inj (String.append _)) in Heq.
      rewrite Hid in Heq. simpl in Heq. rewrite Htr in Heq.
      destruct (PyStr.truthy (get_checkpoint_ns config)).
      * do 2 apply (inj (String.append _)) in Heq. done.
      * done.
    + unfold checkpoint_key, latest_key. rewrite !make_key_last_part.
      intros Heq. do 4 apply (inj (String.append _)) in Heq.
      rewrite Hid in Heq. simpl in Heq. rewrite Htr in Heq.
      destruct (PyStr.truthy (get_checkpoint_ns config)).
      * do 2 apply (inj (String.append _)) in Heq. done.
      * done.
  - destruct (get_tuple_of_put_data self config_latest config checkpoint2 metadata2 d' s2)
      as (tup & Hg & Hc & Hm & _); [| done | by exists tup].
    unfold resolved_key. rewrite Ht2, Hn2, Hi2. by apply put_lookup_latest.
Qed.

Lemma list_loop_none_readable config d (keys : list string) :
  (∀ key, key ∈ keys → ¬ readable d key) → list_loop config d keys = Ok [].
Proof.
  induction keys as [|key keys IH]; intros Hn; [done |].
  rewrite list_loop_skip by (apply Hn, elem_of_cons; by left).
  apply IH. intros k Hk. apply Hn, elem_of_cons. by right.
Qed.

Lemma slice_to_nil {A} (n : Z) : slice_to n ([] : list A) = [].
Proof. unfold slice_to. destruct (0 <=? n); apply take_nil. Qed.

(** X4. A checkpoint whose id is absent, empty or ["latest"] has the alias
    as its own key: [put] writes that single key, and [list] returns
    nothing for a store that holds only such a checkpoint. *)
Theorem put_without_id self config checkpoint metadata d :
  last_part (cp_id checkpoint) = "latest" →
  checkpoint_key self config checkpoint = latest_key self config ∧
  (∀ serialized, dumps (put_data config checkpoint metadata) = Some serialized →
     (put self config checkpoint metadata d).2 =
     Redis.setex (latest_key self config) (ttl self) serialized d) ∧
  (∀ config' limit,
     list_ self config' limit (put self config checkpoint metadata ∅).2 = Ok []).
Proof.
  intros Hlast.
  assert (Hkey : checkpoint_key self config checkpoint = latest_key self config).
  { unfold checkpoint_key, latest_key. by rewrite !make_key_last_part, Hlast. }
  split; [done |]. split.
  - intros serialized Hs. rewrite (put_unfold _ _ _ _ _ _ Hs), Hkey. simpl.
    unfold Redis.setex. apply insert_insert_eq.
  - intros config' limit. rewrite list_unfold, list_loop_none_readable.
    + simpl. destruct limit as [n|]; [| done].
      destruct (n =? 0); [done |]. by rewrite slice_to_nil.
    + intros key [_ [e He]]%elem_of_keys [Hend _].
      destruct (decide (key = latest_key self config)) as [-> | Hne].
      * by rewrite latest_key_endswith in Hend.
      * rewrite put_lookup_other, lookup_empty in He; [done | by rewrite Hkey | done].
Qed.

(** X6. For session ids without a colon, a [put] for one session does not
    change what [get_tuple] answers for another. *)
Theorem put_other_session_keeps_get self configA configB checkpoint metadata d :
  PyStr.has_char ":" (get_thread_id configA) = false →
  PyStr.has_char ":" (get_thread_id configB) = false →
  get_thread_id configA ≠ get_thread_id configB →
  get_tuple self configA (put self configB checkpoint metadata d).2 =
  get_tuple self configA d.
Proof.
  intros HA HB Hne. rewrite !get_tuple_unfold.
  rewrite put_lookup_other; [done | |];
    unfold resolved_key, checkpoint_key, latest_key; intros Heq;
    by apply make_key_thread_inj in Heq as [? _].
Qed.

(** X7. Keys do not collide on colon-free parts: two keys built from
    session ids, checkpoint namespaces and last parts that contain no colon
    are equal only if the three parts are. *)
Theorem make_key_injective self (t1 t2 ns1 ns2 : string) (id1 id2 : option string) :
  PyStr.has_char ":" t1 = false → PyStr.has_char ":" t2 = false →
  PyStr.has_char ":" ns1 = false → PyStr.has_char ":" ns2 = false →
  PyStr.has_char ":" (last_part id1) = false →
  PyStr.has_char ":" (last_part id2) = false →
  _make_key self t1 ns1 id1 = _make_key self t2 ns2 id2 →
  t1 = t2 ∧ ns1 = ns2 ∧ last_part id1 = last_part id2.
Proof.
  intros Ht1 Ht2 Hn1 Hn2 Hl1 Hl2 Heq.
  apply make_key_thread_inj in Heq as [-> Htail]; [| done | done].
  split; [done |].
  destruct ns1 as [|a1 ns1], ns2 as [|a2 ns2]; cbn [PyStr.truthy] in Htail.
  - done.
  - rewrite Htail in Hl1.
    change (String a2 ns2 +:+ ":" +:+ last_part id2)
      with (String a2 ns2 +:+ String ":" (last_part id2)) in Hl1.
    by rewrite has_char_app_sep in Hl1.
  - rewrite <- Htail in Hl2.
    change (String a1 ns1 +:+ ":" +:+ last_part id1)
      with (String a1 ns1 +:+ String ":" (last_part id1)) in Hl2.
    by rewrite has_char_app_sep in Hl2.
  - change (String a1 ns1 +:+ String ":" (last_part id1) =
            String a2 ns2 +:+ String ":" (last_part id2)) in Htail.
    by apply (app_sep_inj ":") in Htail.
Qed.

Lemma Forall2_elem_of_l {A B} (R : A → B → Prop) (l : list A) (k : list B) (x : A) :
  Forall2 R l k → x ∈ l → ∃ y, y ∈ k ∧ R x y.
Proof.
  induction 1 as [|x' y l k HR _ IH]; intros Hx.
  - by apply elem_of_nil in Hx.
  - apply elem_of_cons in Hx as [-> | Hx].
    + exists y. split; [apply elem_of_cons; by left | done].
    + destruct (IH Hx) as (y' & Hy' & HR'). exists y'.
      split; [apply elem_of_cons; by right | done].
Qed.

(** The loop returns when every record it reads unpickles to a dictionary
    with a checkpoint. *)
Lemma list_loop_total config d (keys : list string) :
  (∀ key e, key ∈ keys → d !! key = Some e →
     ∃ data cp, loads (Redis.e_value e) = Some data ∧ d_checkpoint data = Some cp) →
  ∃ tuples, list_loop config d keys = Ok tuples.
Proof.
  induction keys as [|key keys IH]; intros Hvalid; [by exists [] |].
  destruct IH as [rest Hrest].
  { intros k e Hk. apply Hvalid, elem_of_cons. by right. }
  destruct (readable_dec d key) as [[Hend (e & Hd & Hv)] | Hn].
  - rewrite (list_loop_read _ _ _ _ e Hend Hd Hv).
    destruct (Hvalid key e) as (data & cp & -> & Hcp);
      [apply elem_of_cons; by left | done |].
    unfold make_tuple. rewrite Hcp. simpl. rewrite Hrest. by eexists.
  - rewrite (list_loop_skip _ _ _ _ Hn). by exists rest.
Qed.

Lemma written_by_valid self calls d (key : string) (e : Redis.entry) :
  written_by self calls d → d !! key = Some e →
  ∃ data cp, loads (Redis.e_value e) = Some data ∧ d_checkpoint data = Some cp.
Proof.
  intros Hw Hd. destruct (Hw key e Hd) as (c & serialized & _ & Hs & Hv & _).
  rewrite Hv, (loads_dumps _ _ Hs). by eexists _, _.
Qed.

(** X8. On a store that only [put] has written, starting from the empty
    one, [list] never raises: it returns a sequence for every config and
    every limit. *)
Theorem list_total_on_written self calls config limit :
  ∃ tuples, list_ self config limit (replay self calls ∅) = Ok tuples.
Proof.
  rewrite list_unfold.
  destruct (list_loop_total config (replay self calls ∅)
              (Redis.keys (list_pattern self config) (replay self calls ∅)))
    as [tuples Hl].
  - intros key e _ Hd.
    by apply (written_by_valid self calls _ key e (written_by_replay_empty self calls)).
  - rewrite Hl. simpl. by eexists.
Qed.

(** After any sequence of [put] calls on the empty store, the checkpoint
    put last is listed for its session, as written. *)
Lemma put_listed self calls config_put config_list checkpoint metadata serialized :
  Redis.literal (namespace self) = true →
  Redis.literal (get_thread_id config_put) = true →
  Redis.literal (get_checkpoint_ns config_list) = true →
  get_thread_id config_list = get_thread_id config_put →
  (get_checkpoint_ns config_list = "" ∨
   get_checkpoint_ns config_list = get_checkpoint_ns config_put) →
  dumps (put_data config_put checkpoint metadata) = Some serialized →
  PyStr.endswith ":latest" (checkpoint_key self config_put checkpoint) = false →
  ∃ tuples tup,
    list_ self config_list None
      (put self config_put checkpoint metadata (replay self calls ∅)).2 = Ok tuples ∧
    tup ∈ tuples ∧ t_checkpoint tup = checkpoint ∧ t_metadata tup = metadata ∧
    configurable (t_config tup) ≫= thread_id = Some (get_thread_id config_put).
Proof.
  intros HN Ht Hns Hthread Hnsl Hs Hend.
  set (d := (put self config_put checkpoint metadata (replay self calls ∅)).2).
  assert (Hw : written_by self (calls ++ [PutCall config_put checkpoint metadata]) d)
    by apply (written_by_put self calls _ (PutCall config_put checkpoint metadata)),
             written_by_replay_empty.
  assert (Hd : d !! checkpoint_key self config_put checkpoint =
               Some (Redis.Entry (ttl self) serialized))
    by by apply put_lookup_checkpoint.
  rewrite list_unfold.
  destruct (list_loop_total config_list d (Redis.keys (list_pattern self config_list) d))
    as [tuples Hl].
  { intros key e _ He. by apply (written_by_valid self _ d key e Hw). }
  rewrite Hl. simpl.
  destruct (list_loop_ok _ _ _ _ Hl) as (ks & _ & HF & _ & Hcomp).
  assert (Hin : checkpoint_key self config_put checkpoint ∈ ks).
  { apply Hcomp.
    - apply elem_of_keys. split; [| by eexists].
      unfold checkpoint_key. rewrite make_key_last_part.
      unfold list_pattern. rewrite Hthread.
      destruct (PyStr.truthy (get_checkpoint_ns config_list)) eqn:Htr.
      + destruct Hnsl as [Hnil | Hsame]; [by rewrite Hnil in Htr |].
        rewrite Hsame in Htr, Hns |- *. rewrite Htr.
        replace (namespace self +:+ ":" +:+ get_thread_id config_put +:+ ":" +:+
                 get_checkpoint_ns config_put +:+ ":*")
          with ((namespace self +:+ ":" +:+ get_thread_id config_put +:+ ":" +:+
                 get_checkpoint_ns config_put +:+ ":") +:+ "*")
          by (by rewrite !app_assoc_s).
        rewrite glob_match_prefix by (by rewrite !literal_app, HN, Ht, Hns).
        apply startswith_spec. exists (last_part (cp_id checkpoint)).
        by rewrite !app_assoc_s.
      + replace (namespace self +:+ ":" +:+ get_thread_id config_put +:+ ":*")
          with ((namespace self +:+ ":" +:+ get_thread_id config_put +:+ ":") +:+ "*")
          by (by rewrite !app_assoc_s).
        rewrite glob_match_prefix by (by rewrite !literal_app, HN, Ht).
        apply startswith_spec. eexists. by rewrite !app_assoc_s.
    - split; [done |]. eexists. split; [exact Hd |]. simpl.
      by apply (dumps_nonempty _ _ Hs). }
  destruct (Forall2_elem_of_l _ _ _ _ HF Hin) as (tup & Htup & e & data & He & Hload & Hmk).
  exists tuples, tup. split; [done |]. split; [done |].
  rewrite Hd in He. injection He as <-. simpl in Hload.
  rewrite (loads_dumps _ _ Hs) in Hload. injection Hload as <-.
  by injection Hmk as <-.
Qed.

(** X9. After any sequence of [put] calls on the empty store, the
    checkpoint put last is listed, with its metadata, for its session, both
    under its own checkpoint namespace and under the empty one, provided
    its key does not end in [:latest] and the namespace, the session id
    and the listing checkpoint namespace hold no glob metacharacter. *)
Theorem put_then_list self calls config_put config_list checkpoint metadata serialized :
  Redis.literal (namespace self) = true →
  Redis.literal (get_thread_id config_put) = true →
  Redis.literal (get_checkpoint_ns config_list) = true →
  get_thread_id config_list = get_thread_id config_put →
  (get_checkpoint_ns config_list = "" ∨
   get_checkpoint_ns config_list = get_checkpoint_ns config_put) →
  dumps (put_data config_put checkpoint metadata) = Some serialized →
  PyStr.endswith ":latest" (checkpoint_key self config_put checkpoint) = false →
  ∃ tuples tup,
    list_ self config_list None
      (put self config_put checkpoint metadata (replay self calls ∅)).2 = Ok tuples ∧
    tup ∈ tuples ∧ t_checkpoint tup = checkpoint ∧ t_metadata tup = metadata.
Proof.
  intros HN Ht Hns Hthread Hnsl Hs Hend.
  destruct (put_listed self calls config_put config_list checkpoint metadata serialized
              HN Ht Hns Hthread Hnsl Hs Hend)
    as (tuples & tup & Hl & Hin & Hc & Hm & _).
  by exists tuples, tup.
Qed.

(** C10. A config without a thread id, or without [configurable], is
    served as session ["default"]: [put] writes the default session's
    keys, [get_tuple] reads the default session's latest key and [list]
    enumerates the default session's pattern.  So a caller that omits the
    thread id observes what another such caller wrote: [get_tuple] returns
    that caller's checkpoint, and [list] holds it among its items, each
    under the session id ["default"]. *)
Theorem missing_thread_id_is_default self config1 config2 checkpoint metadata d serialized :
  configurable config1 ≫= thread_id = None →
  configurable config2 ≫= thread_id = None →
  get_checkpoint_ns config2 = get_checkpoint_ns config1 →
  get_checkpoint_id config2 = None →
  dumps (put_data config1 checkpoint metadata) = Some serialized →
  get_thread_id config1 = "default" ∧
  put self config1 checkpoint metadata d =
    (Ok config1,
     Redis.setex (_make_key self "default" (get_checkpoint_ns config1) None)
       (ttl self) serialized
       (Redis.setex (_make_key self "default" (get_checkpoint_ns config1) (cp_id checkpoint))
          (ttl self) serialized d)) ∧
  resolved_key self config2 = _make_key self "default" (get_checkpoint_ns config1) None ∧
  list_pattern self config2 =
    (if PyStr.truthy (get_checkpoint_ns config1)
     then namespace self +:+ ":" +:+ "default" +:+ ":" +:+ get_checkpoint_ns config1 +:+ ":*"
     else namespace self +:+ ":" +:+ "default" +:+ ":*") ∧
  (∃ tup,
     get_tuple self config2 (put self config1 checkpoint metadata d).2 = Ok (Some tup) ∧
     t_checkpoint tup = checkpoint ∧ t_metadata tup = metadata ∧
     configurable (t_config tup) ≫= thread_id = Some "default") ∧
  (∀ calls,
     Redis.literal (namespace self) = true →
     Redis.literal (get_checkpoint_ns config1) = true →
     PyStr.endswith ":latest" (checkpoint_key self config1 checkpoint) = false →
     ∃ tuples tup,
       list_ self config2 None
         (put self config1 checkpoint metadata (replay self calls ∅)).2 = Ok tuples ∧
       tup ∈ tuples ∧
       t_checkpoint tup = checkpoint ∧ t_metadata tup = metadata ∧
       configurable (t_config tup) ≫= thread_id = Some "default").
Proof.
  intros H1 H2 Hns Hid Hs.
  assert (Hd1 : get_thread_id config1 = "default")
    by (unfold get_thread_id; by rewrite H1).
  assert (Hd2 : get_thread_id config2 = "default")
    by (unfold get_thread_id; by rewrite H2).
  split; [done |]. split; [| split; [| split; [| split]]].
  - rewrite (put_unfold _ _ _ _ _ _ Hs). unfold latest_key, checkpoint_key.
    by rewrite Hd1.
  - unfold resolved_key. by rewrite Hd2, Hns, Hid.
  - unfold list_pattern. by rewrite Hd2, Hns.
  - destruct (get_tuple_of_put_data self config2 config1 checkpoint metadata
                (put self config1 checkpoint metadata d).2 serialized)
      as (tup & Hg & Hc & Hm & Ht); [| done |].
    + unfold resolved_key. rewrite Hd2, Hns, Hid, <- Hd1.
      by apply put_lookup_latest.
    + exists tup. by rewrite Ht, Hd1.
  - intros calls HN Hlit Hend.
    destruct (put_listed self calls config1 config2 checkpoint metadata serialized)
      as (tuples & tup & Hl & Hin & Hc & Hm & Ht);
      [done | by rewrite Hd1 | by rewrite Hns | by rewrite Hd1, Hd2
      | right; exact Hns | done | done |].
    exists tuples, tup. by rewrite Ht, Hd1.
Qed.

End StoreMore.

(** * Further properties of the coverage analyzer *)

Section AnalyzerMore.
Import ConversationAnalyzerTool.

#[local] Arguments String.append !_ _ / : simpl nomatch.

Lemma user_texts_app (h h' : list message) :
  user_texts (h ++ h') = user_texts h ++ user_texts h'.
Proof. unfold user_texts. by rewrite List.filter_app, List.map_app. Qed.

Lemma user_texts_length (h : list message) :
  length (user_texts h) = length (List.filter is_user h).
Proof. unfold user_texts. apply List.length_map. Qed.

(** The analysis reads a non-empty history only through the lower-cased
    contents of its user messages. *)
Lemma run_ext (h h' : list message) :
  h ≠ [] → h' ≠ [] → user_texts h = user_texts h' → _run h = _run h'.
Proof.
  intros Hh Hh' Heq.
  assert (Hc : ∀ kws, _check_mentions h kws = _check_mentions h' kws).
  { intros kws. unfold _check_mentions. fold (user_texts h) (user_texts h').
    by rewrite Heq. }
  assert (Hl : length (List.filter is_user h) = length (List.filter is_user h'))
    by (by rewrite <- !user_texts_length, Heq).
  destruct h as [|m h]; [done |]. destruct h' as [|m' h']; [done |].
  unfold _run. cbv beta iota zeta. by rewrite !Hc, Hl.
Qed.

Lemma contains_app_l (k a b : string) :
  PyStr.contains k a = true → PyStr.contains k (a +:+ b) = true.
Proof.
  rewrite !contains_spec. intros (u & v & ->). exists u, (v +:+ b).
  by rewrite !app_assoc_s.
Qed.

Lemma join_app_l (sep : string) (l l' : list string) :
  ∃ rest, PyStr.join sep (l ++ l') = PyStr.join sep l +:+ rest.
Proof.
  induction l as [|x l IH].
  - exists (PyStr.join sep l'). reflexivity.
  - destruct IH as [rest IH]. destruct l as [|y l].
    + destruct l' as [|y' l'].
      * exists "". by rewrite app_nil_r_s.
      * exists (sep +:+ PyStr.join sep (y' :: l')). reflexivity.
    + exists rest.
      change (PyStr.join sep ((x :: y :: l) ++ l'))
        with (x +:+ sep +:+ PyStr.join sep ((y :: l) ++ l')).
      change (PyStr.join sep (x :: y :: l))
        with (x +:+ sep +:+ PyStr.join sep (y :: l)).
      by rewrite IH, !app_assoc_s.
Qed.

Lemma check_mentions_app (h h' : list message) (keywords : list string) :
  _check_mentions h keywords = true → _check_mentions (h ++ h') keywords = true.
Proof.
  unfold _check_mentions. fold (user_texts h) (user_texts (h ++ h')).
  rewrite user_texts_app, !existsb_exists.
  intros (k & Hk & Hc). exists k. split; [done |].
  destruct (join_app_l " " (user_texts h) (user_texts h')) as [rest ->].
  by apply contains_app_l.
Qed.

(** Raising flags never lowers the score or withdraws readiness. *)
Lemma score_monotone (b1 b2 b3 b4 c1 c2 c3 c4 : bool) :
  (b1 = true → c1 = true) → (b2 = true → c2 = true) →
  (b3 = true → c3 = true) → (b4 = true → c4 = true) →
  let cov x1 x2 x3 x4 :=
    [("taste_anchors", x1); ("style_preference", x2);
     ("narrative_desire", x3); ("consumption_habit", x4)] in
  (round2 (raw_score (cov b1 b2 b3 b4)) <= round2 (raw_score (cov c1 c2 c3 c4)))%Q ∧
  (Qle_bool (3 # 4) (raw_score (cov b1 b2 b3 b4)) = true →
   Qle_bool (3 # 4) (raw_score (cov c1 c2 c3 c4)) = true).
Proof.
  intros H1 H2 H3 H4.
  destruct b1; [rewrite (H1 eq_refl) | clear H1];
  destruct b2; [rewrite (H2 eq_refl) | clear H2 | rewrite (H2 eq_refl) | clear H2];
  destruct b3; try rewrite (H3 eq_refl); clear H3;
  destruct b4; try rewrite (H4 eq_refl); clear H4;
  repeat match goal with c : bool |- _ => destruct c end;
  (split; [by vm_compute | by vm_compute]).
Qed.

(** X10. Appending messages to a non-empty history never loses ground: the
    count of user turns does not drop, every dimension that was covered
    stays covered, the score does not decrease, and a history that was
    ready for summary stays ready. *)
Theorem analysis_monotone (h h' : list message) :
  h ≠ [] →
  (turn_count (_run h) ≤ turn_count (_run (h ++ h')))%nat ∧
  Forall2 (λ p q, p.1 = q.1 ∧ (p.2 = true → q.2 = true))
    (coverage (_run h)) (coverage (_run (h ++ h'))) ∧
  (∃ q q', coverage_score (_run h) = Some q ∧
           coverage_score (_run (h ++ h')) = Some q' ∧ (q <= q')%Q) ∧
  (ready_for_summary (_run h) = true → ready_for_summary (_run (h ++ h')) = true).
Proof.
  intros Hne. destruct h as [|m h]; [done |].
  change ((m :: h) ++ h') with (m :: (h ++ h')).
  unfold _run. cbv beta iota zeta.
  change (m :: (h ++ h')) with ((m :: h) ++ h').
  set (g := m :: h).
  cbn [turn_count coverage coverage_score ready_for_summary].
  assert (Hlen : (length (List.filter is_user g) ≤
                  length (List.filter is_user (g ++ h')))%nat).
  { rewrite List.filter_app, length_app. lia. }
  pose proof (λ kws, check_mentions_app g h' kws) as Hmono.
  destruct (score_monotone
              (_check_mentions g ["book"; "author"; "story"; "novel"])
              (_check_mentions g ["prose"; "writing"; "style"; "voice"])
              (_check_mentions g ["wish"; "want"; "story"; "plot"])
              (_check_mentions g ["read"; "time"; "daily"; "pages"])
              (_check_mentions (g ++ h') ["book"; "author"; "story"; "novel"])
              (_check_mentions (g ++ h') ["prose"; "writing"; "style"; "voice"])
              (_check_mentions (g ++ h') ["wish"; "want"; "story"; "plot"])
              (_check_mentions (g ++ h') ["read"; "time"; "daily"; "pages"]))
    as [Hscore Hready]; try apply Hmono.
  split; [done |]. split; [| split].
  - repeat (constructor; [split; [reflexivity | apply Hmono] |]). constructor.
  - eexists _, _. split; [reflexivity |]. split; [reflexivity |]. exact Hscore.
  - rewrite !andb_true_iff, !Nat.leb_le. intros [Ht Hq]. split; [lia | by apply Hready].
Qed.

(** X11. Messages that are not user-authored are ignored: putting one
    anywhere into a history that is not empty without it leaves the whole
    analysis unchanged. *)
Theorem non_user_messages_ignored (h1 h2 : list message) (m : message) :
  is_user m = false → h1 ++ h2 ≠ [] →
  _run (h1 ++ m :: h2) = _run (h1 ++ h2).
Proof.
  intros Hm Hne. apply run_ext; [by destruct h1 | done |].
  rewrite !user_texts_app. f_equal. unfold user_texts. simpl. by rewrite Hm.
Qed.

(** X12. The analysis does not see letter case: two histories whose
    messages agree, one by one, on being user-authored and on their
    lower-cased content get the same analysis. *)
Theorem analysis_ignores_case (h h' : list message) :
  Forall2 (λ m m', is_user m = is_user m' ∧
                   PyStr.lower (content m) = PyStr.lower (content m')) h h' →
  _run h = _run h'.
Proof.
  intros HF.
  assert (Heq : user_texts h = user_texts h').
  { induction HF as [|m m' h h' [Hu Hc] _ IH]; [done |].
    unfold user_texts in *. simpl. rewrite <- Hu.
    destruct (is_user m); simpl; [by rewrite Hc, IH | done]. }
  destruct HF as [|m m' h h' _ _]; [done |]. by apply run_ext.
Qed.

End AnalyzerMore.

(** * Further properties of the conversation loop *)

Section CliMore.
Import Cli.

Lemma user_entry_is_user (user_input : string) :
  ConversationAnalyzerTool.is_user (user_entry user_input) = true.
Proof. reflexivity. Qed.

Lemma assistant_entry_not_user (r : response) :
  ConversationAnalyzerTool.is_user (assistant_entry r) = false.
Proof.
  unfold assistant_entry. destruct (r_reasoning r) as [reasoning|]; [| reflexivity].
  destruct (PyStr.truthy reasoning); reflexivity.
Qed.

Lemma step_paired st ev : paired st → has_message ev → paired (step st ev).1.
Proof.
  intros [Hl Hu] Hm. destruct ev as [|user_input agent]; [done |].
  destruct (PyStr.truthy user_input) eqn:Htr.
  2: { rewrite step_no_turn by (by left). by rewrite Htr. }
  destruct (is_quit user_input) eqn:Hq.
  { rewrite step_no_turn by (by right). by rewrite Htr. }
  assert (Hp : ∀ r status, paired
            {| conversation_history :=
                 conversation_history st ++ [user_entry user_input; assistant_entry r];
               turn_count := turn_count st + 1;
               status := status |}).
  { intros r status. unfold paired. cbn [conversation_history turn_count]. split.
    - rewrite length_app. simpl. lia.
    - rewrite List.filter_app, length_app. simpl.
      rewrite user_entry_is_user, assistant_entry_not_user. simpl. lia. }
  destruct agent as [r| | |r].
  - rewrite (step_turn st user_input r Htr Hq). cbv zeta.
    destruct (r_is_complete r || (12 <=? turn_count st + 1)%nat); apply Hp.
  - unfold step. by rewrite Htr, Hq.
  - destruct Hm.
  - rewrite (step_turn_raises st user_input r Htr Hq). cbv zeta.
    destruct (r_is_complete r || (12 <=? turn_count st + 1)%nat); apply Hp.
Qed.

Lemma run_paired st evs : paired st → Forall has_message evs → paired (run st evs).
Proof.
  revert st. induction evs as [|ev evs IH]; intros st Hp Hm; [done |].
  apply Forall_cons in Hm as [Hev Hm].
  simpl. pose proof (step_paired st ev Hp Hev) as Hs.
  destruct (step st ev) as [st' []]; [by apply IH | done | done | done | by apply IH].
Qed.

Lemma step_counted st ev : counted st → counted (step st ev).1.
Proof.
  intros [Hu Hl]. destruct ev as [|user_input agent]; [done |].
  destruct (PyStr.truthy user_input) eqn:Htr.
  2: { rewrite step_no_turn by (by left). by rewrite Htr. }
  destruct (is_quit user_input) eqn:Hq.
  { rewrite step_no_turn by (by right). by rewrite Htr. }
  cbv zeta in Hu, Hl.
  assert (Hp : ∀ r status, counted
            {| conversation_history :=
                 conversation_history st ++ [user_entry user_input; assistant_entry r];
               turn_count := turn_count st + 1;
               status := status |}).
  { intros r status. unfold counted. cbn [conversation_history turn_count].
    rewrite List.filter_app, !length_app. simpl.
    rewrite user_entry_is_user, assistant_entry_not_user. simpl. lia. }
  destruct agent as [r| | |r].
  - rewrite (step_turn st user_input r Htr Hq). cbv zeta.
    destruct (r_is_complete r || (12 <=? turn_count st + 1)%nat); apply Hp.
  - unfold step. by rewrite Htr, Hq.
  - rewrite (step_no_message st user_input Htr Hq).
    unfold counted. cbn [fst conversation_history turn_count].
    rewrite List.filter_app, !length_app. simpl.
    rewrite user_entry_is_user. simpl. lia.
  - rewrite (step_turn_raises st user_input r Htr Hq). cbv zeta.
    destruct (r_is_complete r || (12 <=? turn_count st + 1)%nat); apply Hp.
Qed.

Lemma run_counted st evs : counted st → counted (run st evs).
Proof.
  revert st. induction evs as [|ev evs IH]; intros st Hp; [done |].
  simpl. pose proof (step_counted st ev Hp) as Hs.
  destruct (step st ev) as [st' []]; [by apply IH | done | done | done | by apply IH].
Qed.

Lemma analyzer_turn_count (h : list message) :
  ConversationAnalyzerTool.turn_count (ConversationAnalyzerTool._run h) =
  length (List.filter ConversationAnalyzerTool.is_user h).
Proof. by destruct h. Qed.

(** X13. The history and the counter throughout a run from the initial
    state.  Every counted turn has left one user entry and one assistant
    entry; a pass whose response lacks its message leaves a user entry
    that is not counted.  So the analyzer, given the history, counts at
    least as many turns as the loop, the history holds that many entries
    plus one per counted turn, and when every response carried its message
    the two counts agree and the history holds two entries per turn. *)
Theorem history_matches_turn_count (evs : list event) :
  let st := run initial evs in
  let analyzed :=
    ConversationAnalyzerTool.turn_count
      (ConversationAnalyzerTool._run (conversation_history st)) in
  (turn_count st ≤ analyzed)%nat ∧
  length (conversation_history st) = (analyzed + turn_count st)%nat ∧
  (Forall has_message evs →
     analyzed = turn_count st ∧
     length (conversation_history st) = (2 * turn_count st)%nat).
Proof.
  intros st analyzed. unfold analyzed. rewrite analyzer_turn_count.
  destruct (run_counted initial evs) as [Hu Hl]; [by split |].
  split; [done |]. split; [done |].
  intros Hm. destruct (run_paired initial evs) as [Hl' Hu']; [by split | done |].
  by split.
Qed.

Lemma step_grows st ev :
  (turn_count st ≤ turn_count (step st ev).1)%nat ∧
  conversation_history st `prefix_of` conversation_history (step st ev).1.
Proof.
  destruct ev as [|user_input agent]; [done |].
  destruct (PyStr.truthy user_input) eqn:Htr.
  2: { rewrite step_no_turn by (by left). by rewrite Htr. }
  destruct (is_quit user_input) eqn:Hq.
  { rewrite step_no_turn by (by right). by rewrite Htr. }
  destruct agent as [r| | |r].
  - rewrite (step_turn st user_input r Htr Hq). cbv zeta.
    destruct (r_is_complete r || (12 <=? turn_count st + 1)%nat);
      cbn [fst conversation_history turn_count];
      (split; [lia | by apply prefix_app_r]).
  - unfold step. by rewrite Htr, Hq.
  - rewrite (step_no_message st user_input Htr Hq).
    cbn [fst conversation_history turn_count].
    split; [lia | by apply prefix_app_r].
  - rewrite (step_turn_raises st user_input r Htr Hq). cbv zeta.
    destruct (r_is_complete r || (12 <=? turn_count st + 1)%nat);
      cbn [fst conversation_history turn_count];
      (split; [lia | by apply prefix_app_r]).
Qed.

(** X14. Nothing is taken back during a run: from any state, the turn
    count never decreases and the history only grows at its end. *)
Theorem run_grows st (evs : list event) :
  (turn_count st ≤ turn_count (run st evs))%nat ∧
  conversation_history st `prefix_of` conversation_history (run st evs).
Proof.
  revert st. induction evs as [|ev evs IH]; intros st; [done |].
  simpl. destruct (step_grows st ev) as [Ht Hp].
  destruct (step st ev) as [st' dec]; simpl in Ht, Hp.
  destruct dec; [| done | done | done |];
    (destruct (IH st') as [Ht' Hp']; split; [lia | by etrans]).
Qed.

(** A run whose agent never flags completion ends [complete] only on a
    pass that brought the count to 12 or beyond. *)
Lemma run_never_flags st (evs : list event) :
  status st = in_progress → Forall never_flags evs →
  status (run st evs) = complete → (12 ≤ turn_count (run st evs))%nat.
Proof.
  revert st. induction evs as [|ev evs IH]; intros st Hs Hnf Hc.
  - simpl in Hc. congruence.
  - apply Forall_cons in Hnf as [Hev Hnf]. simpl in Hc |- *.
    destruct ev as [|user_input agent].
    { simpl in Hc. discriminate Hc. }
    destruct (PyStr.truthy user_input) eqn:Htr.
    2: { rewrite step_no_turn in Hc |- * by (by left).
         rewrite Htr in Hc |- *. simpl in Hc |- *. by apply IH. }
    destruct (is_quit user_input) eqn:Hq.
    { rewrite step_no_turn in Hc by (by right). rewrite Htr in Hc.
      simpl in Hc. discriminate Hc. }
    destruct agent as [r| | |r].
    + rewrite (step_turn st user_input r Htr Hq) in Hc |- *. cbv zeta in Hc |- *.
      simpl in Hev. rewrite Hev in Hc |- *. rewrite orb_false_l in Hc |- *.
      destruct (12 <=? turn_count st + 1)%nat eqn:Hle.
      * apply Nat.leb_le in Hle. cbn [turn_count]. lia.
      * by apply IH.
    + unfold step in Hc |- *. rewrite Htr, Hq in Hc |- *. by apply IH.
    + rewrite (step_no_message st user_input Htr Hq) in Hc |- *. by apply IH.
    + rewrite (step_turn_raises st user_input r Htr Hq) in Hc |- *.
      cbv zeta in Hc |- *.
      destruct (r_is_complete r || (12 <=? turn_count st + 1)%nat); by apply IH.
Qed.

(** X15. When the agent never flags completion, an interview that ends
    with status [complete] has taken at least 12 turns, and exactly 12 if
    no completion block raised on the way. *)
Theorem completes_only_at_ceiling (evs : list event) :
  Forall never_flags evs →
  status (run initial evs) = complete →
  (12 ≤ turn_count (run initial evs))%nat ∧
  (Forall block_finishes evs → turn_count (run initial evs) = 12%nat).
Proof.
  intros Hnf Hc.
  assert (Hge : (12 ≤ turn_count (run initial evs))%nat)
    by by apply run_never_flags.
  split; [done |]. intros Hb.
  destruct (run_ceiling initial evs) as [Hle _]; [| done | lia].
  split; [done | simpl; lia].
Qed.

Lemma take_length (n : nat) (s : string) :
  String.length (PyStr.take n s) = Nat.min n (String.length s).
Proof.
  revert s. induction n as [|n IH]; intros [|c s]; simpl; [done | done | done |].
  by rewrite IH.
Qed.

Lemma take_prefix (n : nat) (s : string) : ∃ rest, s = PyStr.take n s +:+ rest.
Proof.
  revert s. induction n as [|n IH]; intros [|c s].
  - by exists "".
  - by exists (String c s).
  - by exists "".
  - destruct (IH s) as [rest Hrest]. exists rest. simpl.
    change (String c (PyStr.take n s) +:+ rest) with (String c (PyStr.take n s +:+ rest)).
    by rewrite <- Hrest.
Qed.

Lemma take_all (n : nat) (s : string) :
  (String.length s ≤ n)%nat → PyStr.take n s = s.
Proof.
  revert s. induction n as [|n IH]; intros [|c s] Hl; simpl in *; [done | lia | done |].
  rewrite IH; [done | lia].
Qed.

(** X16. The input handed to the loop is a prefix of the stripped line and
    is empty only if the stripped line is; a line of at most 2000
    characters after stripping is passed whole; and unless the confirmation
    answer is [y], what is passed has at most 2000 characters. *)
Theorem read_input_bounded (line confirm_line : string) :
  (∃ rest, PyStr.strip line = read_input line confirm_line +:+ rest) ∧
  (read_input line confirm_line = "" ↔ PyStr.strip line = "") ∧
  ((String.length (PyStr.strip line) ≤ 2000)%nat →
     read_input line confirm_line = PyStr.strip line) ∧
  (PyStr.lower (PyStr.strip confirm_line) ≠ "y" →
     (String.length (read_input line confirm_line) ≤ 2000)%nat).
Proof.
  unfold read_input. cbv zeta.
  destruct (2000 <? String.length (PyStr.strip line))%nat eqn:Hlong.
  - apply Nat.ltb_lt in Hlong.
    destruct (String.eqb_spec (PyStr.lower (PyStr.strip confirm_line)) "y") as [Hy | Hy];
      cbn [negb].
    + split; [exists ""; by rewrite app_nil_r_s |]. split; [done |].
      split; [done |]. by intros [].
    + split; [apply take_prefix |]. split; [| split].
      * destruct (PyStr.strip line) as [|c s]; [done |]. split; discriminate.
      * lia.
      * intros _. rewrite take_length. lia.
  - apply Nat.ltb_ge in Hlong.
    split; [exists ""; by rewrite app_nil_r_s |]. done.
Qed.

(** X17. The progress bar is as long as the larger of its two arguments,
    so it has [max_turns] symbols whenever the count does not exceed them,
    and as many filled ones as the count.  In a run of the loop from the
    initial state in which no completion block raises, the bar drawn for
    the current count has exactly 12 symbols. *)
Theorem progress_bar_length (turn_count max_turns : nat) (evs : list event) :
  length (progress turn_count max_turns) = Nat.max turn_count max_turns ∧
  length (List.filter (λ x, match x with Filled => true | Hollow => false end)
            (progress turn_count max_turns)) = turn_count ∧
  (Forall block_finishes evs →
     length (progress (Cli.turn_count (run initial evs)) 12) = 12%nat).
Proof.
  assert (Hlen : ∀ n m, length (progress n m) = Nat.max n m).
  { intros n m. unfold progress. rewrite length_app, !repeat_length. lia. }
  split; [apply Hlen |]. split.
  - unfold progress. rewrite List.filter_app, length_app.
    assert (Hf : ∀ k, List.filter (λ x, match x with Filled => true | Hollow => false end)
                        (repeat Filled k) = repeat Filled k)
      by (intros k; induction k as [|k IH]; simpl; [done | by rewrite IH]).
    assert (Hh : ∀ k, List.filter (λ x, match x with Filled => true | Hollow => false end)
                        (repeat Hollow k) = [])
      by (intros k; induction k as [|k IH]; simpl; done).
    rewrite Hf, Hh, repeat_length. simpl. lia.
  - intros Hb. rewrite Hlen.
    destruct (run_ceiling initial evs) as [Hle _]; [| done | lia].
    split; [done | simpl; lia].
Qed.

End CliMore.

(** * Properties of the reasoning extractor *)

Section ExtractorFacts.
Import ReasoningExtractor.

#[local] Arguments String.append !_ _ / : simpl nomatch.

Lemma truthy_reasoning_spec (d : gmap string string) (s : string) :
  truthy_reasoning d = Some s ↔
  d !! "reasoning_content" = Some s ∧ PyStr.truthy s = true.
Proof.
  unfold truthy_reasoning. destruct (d !! "reasoning_content") as [x|].
  - destruct (PyStr.truthy x) eqn:Hx.
    + split; [by intros [= <-] | by intros [[= <-] _]].
    + split; [done | intros [[= <-] Ht]; congruence].
  - split; [done | by intros [? _]].
Qed.

(** X18. [extract_reasoning] never returns an empty string: what it
    returns is the non-empty [reasoning_content] of [additional_kwargs] or
    of [response_metadata]; a non-empty one in [additional_kwargs] is
    returned whatever [response_metadata] holds; and [None] is returned
    exactly when neither holds a non-empty one. *)
Theorem extract_reasoning_nonempty (response : llm_response) :
  (∀ s, extract_reasoning response = Some s →
     PyStr.truthy s = true ∧
     (additional_kwargs response ≫= (λ d, d !! "reasoning_content") = Some s ∨
      response_metadata response ≫= (λ d, d !! "reasoning_content") = Some s)) ∧
  (∀ d s, additional_kwargs response = Some d →
     d !! "reasoning_content" = Some s → PyStr.truthy s = true →
     extract_reasoning response = Some s) ∧
  (extract_reasoning response = None ↔
     additional_kwargs response ≫= truthy_reasoning = None ∧
     response_metadata response ≫= truthy_reasoning = None).
Proof.
  unfold extract_reasoning. split; [| split].
  - intros s.
    destruct (additional_kwargs response) as [d1|] eqn:H1; simpl.
    + destruct (truthy_reasoning d1) as [x|] eqn:Hx.
      * intros [= ->]. apply truthy_reasoning_spec in Hx as [Hl Ht]. auto.
      * destruct (response_metadata response) as [d2|]; simpl; [| done].
        destruct (truthy_reasoning d2) as [y|] eqn:Hy; [| done].
        intros [= ->]. apply truthy_reasoning_spec in Hy as [Hl Ht]. auto.
    + destruct (response_metadata response) as [d2|]; simpl; [| done].
      destruct (truthy_reasoning d2) as [y|] eqn:Hy; [| done].
      intros [= ->]. apply truthy_reasoning_spec in Hy as [Hl Ht]. auto.
  - intros d s -> Hl Ht. simpl.
    by rewrite (proj2 (truthy_reasoning_spec d s) (conj Hl Ht)).
  - destruct (additional_kwargs response ≫= truthy_reasoning) as [x|].
    + split; [done | by intros [? _]].
    + destruct (response_metadata response ≫= truthy_reasoning) as [y|].
      * split; [done | by intros [_ ?]].
      * done.
Qed.

Lemma lstrip_idem (s : string) : PyStr.lstrip (PyStr.lstrip s) = PyStr.lstrip s.
Proof.
  induction s as [|c s IH]; [done |]. simpl.
  destruct (PyStr.is_space c) eqn:Hc; [done |]. simpl. by rewrite Hc.
Qed.

Lemma rstrip_idem (s : string) : PyStr.rstrip (PyStr.rstrip s) = PyStr.rstrip s.
Proof.
  induction s as [|c s IH]; [done |]. simpl.
  destruct (PyStr.rstrip s) as [|a r] eqn:Hr.
  - destruct (PyStr.is_space c) eqn:Hc; [done |]. simpl. by rewrite Hc.
  - change (PyStr.rstrip (String c (String a r)))
      with (match PyStr.rstrip (String a r) with
            | EmptyString => if PyStr.is_space c then EmptyString else String c EmptyString
            | r' => String c r'
            end).
    by rewrite IH.
Qed.

(** Stripping on the left keeps a string stripped on the right. *)
Lemma rstrip_lstrip (s : string) :
  PyStr.rstrip s = s → PyStr.rstrip (PyStr.lstrip s) = PyStr.lstrip s.
Proof.
  induction s as [|c s IH]; [done |]. intros Hs. simpl.
  destruct (PyStr.is_space c) eqn:Hc; [| done].
  apply IH. simpl in Hs. rewrite Hc in Hs.
  destruct (PyStr.rstrip s) as [|a r]; [done |]. by injection Hs.
Qed.

Lemma strip_stripped (s : string) :
  PyStr.lstrip (PyStr.strip s) = PyStr.strip s ∧
  PyStr.rstrip (PyStr.strip s) = PyStr.strip s.
Proof.
  unfold PyStr.strip. split; [apply lstrip_idem |].
  apply rstrip_lstrip, rstrip_idem.
Qed.

Lemma strip_idem (s : string) : PyStr.strip (PyStr.strip s) = PyStr.strip s.
Proof.
  destruct (strip_stripped s) as [Hl Hr].
  unfold PyStr.strip at 1. by rewrite Hr, Hl.
Qed.

Lemma format_reasoning_none (reasoning : string) :
  format_reasoning reasoning None = PyStr.strip reasoning.
Proof. unfold format_reasoning. by destruct reasoning. Qed.

Lemma length_app_s (a b : string) :
  String.length (a +:+ b) = (String.length a + String.length b)%nat.
Proof. induction a as [|c a IH]; simpl; [done | by rewrite IH]. Qed.

(** X19. [format_reasoning] with a positive [max_length] returns the
    stripped text when it fits, and otherwise its first [max_length]
    characters followed by three dots, so never more than [max_length + 3]
    characters; without a [max_length], or with 0, it returns the stripped
    text whole. *)
Theorem format_reasoning_bounded (reasoning : string) (n : Z) :
  format_reasoning reasoning None = PyStr.strip reasoning ∧
  format_reasoning reasoning (Some 0) = PyStr.strip reasoning ∧
  (0 < n →
     (Z.of_nat (String.length (PyStr.strip reasoning)) ≤ n →
        format_reasoning reasoning (Some n) = PyStr.strip reasoning) ∧
     (n < Z.of_nat (String.length (PyStr.strip reasoning)) →
        format_reasoning reasoning (Some n) =
          PyStr.take (Z.to_nat n) (PyStr.strip reasoning) +:+ "...") ∧
     Z.of_nat (String.length (format_reasoning reasoning (Some n))) ≤ n + 3).
Proof.
  split; [apply format_reasoning_none |]. split.
  { unfold format_reasoning. by destruct reasoning. }
  intros Hn.
  assert (Hfmt : format_reasoning reasoning (Some n) =
                 if n <? Z.of_nat (String.length (PyStr.strip reasoning))
                 then PyStr.take (Z.to_nat n) (PyStr.strip reasoning) +:+ "..."
                 else PyStr.strip reasoning).
  { unfold format_reasoning. replace (n =? 0) with false by lia. cbn [negb andb].
    unfold PyStr.slice_to. replace (0 <=? n) with true by lia.
    destruct reasoning as [|c r]; [| done].
    cbn [PyStr.truthy negb]. change (PyStr.strip "") with "".
    change (Z.of_nat (String.length "")) with 0.
    destruct (n <? 0) eqn:Hneg; [lia | done]. }
  rewrite Hfmt. split; [| split].
  - intros Hle. by replace (n <? _) with false by lia.
  - intros Hlt. by replace (n <? _) with true by lia.
  - destruct (n <? Z.of_nat (String.length (PyStr.strip reasoning))) eqn:Hc.
    + rewrite length_app_s, take_length. simpl. lia.
    + lia.
Qed.

(** X20. Formatting without a [max_length] is idempotent, and its result
    neither begins nor ends with whitespace: stripping it again on either
    side changes nothing. *)
Theorem format_reasoning_idempotent (reasoning : string) :
  let formatted := format_reasoning reasoning None in
  format_reasoning formatted None = formatted ∧
  PyStr.lstrip formatted = formatted ∧
  PyStr.rstrip formatted = formatted.
Proof.
  cbv zeta. rewrite !format_reasoning_none. split; [apply strip_idem |].
  apply strip_stripped.
Qed.

Lemma reasoning_rows_from (i : nat) (conversation : list message) :
  Forall (λ r, (i ≤ turn r)%nat ∧
               ∃ msg, conversation !! (turn r - i)%nat = Some msg ∧
                      msg !! "reasoning_content" = Some (reasoning r) ∧
                      role r = msg !! "role" ∧
                      (String.length (content_preview r) ≤ 103)%nat)
    (reasoning_rows i conversation).
Proof.
  revert i. induction conversation as [|msg rest IH]; intros i; [constructor |].
  assert (Hrest : Forall (λ r, (i ≤ turn r)%nat ∧
               ∃ m, (msg :: rest) !! (turn r - i)%nat = Some m ∧
                    m !! "reasoning_content" = Some (reasoning r) ∧
                    role r = m !! "role" ∧
                    (String.length (content_preview r) ≤ 103)%nat)
            (reasoning_rows (S i) rest)).
  { eapply Forall_impl; [apply (IH (S i)) |].
    intros r (Hle & m & Hm & Hrest). split; [lia |]. exists m. split; [| done].
    replace (turn r - i)%nat with (S (turn r - S i)) by lia. done. }
  cbn [reasoning_rows]. destruct (msg !! "reasoning_content") as [x|] eqn:Hx; [| done].
  constructor; [| done]. cbn [turn reasoning role content_preview].
  split; [lia |]. exists msg. rewrite Nat.sub_diag. split; [done |].
  split; [done |]. split; [done |].
  rewrite length_app_s, take_length. change (String.length "...") with 3%nat. lia.
Qed.

Lemma reasoning_rows_length (i : nat) (conversation : list message) :
  length (reasoning_rows i conversation) =
  length (List.filter (λ msg : message, bool_decide (is_Some (msg !! "reasoning_content")))
            conversation).
Proof.
  revert i. induction conversation as [|msg rest IH]; intros i; [done |].
  simpl. destruct (msg !! "reasoning_content") as [x|].
  - rewrite bool_decide_eq_true_2 by by eexists. simpl. by rewrite IH.
  - rewrite bool_decide_eq_false_2 by by intros [? ?]. apply IH.
Qed.

Lemma reasoning_rows_complete (i j : nat) (conversation : list message)
    (msg : message) (x : string) :
  conversation !! j = Some msg → msg !! "reasoning_content" = Some x →
  ∃ r, r ∈ reasoning_rows i conversation ∧ turn r = (i + j)%nat ∧ reasoning r = x.
Proof.
  revert i j. induction conversation as [|m rest IH]; intros i j Hj Hx; [done |].
  destruct j as [|j].
  - injection Hj as ->. cbn [reasoning_rows]. rewrite Hx.
    eexists. split; [apply list_elem_of_here |]. cbn [turn reasoning].
    split; [lia | done].
  - destruct (IH (S i) j Hj Hx) as (r & Hr & Ht & Hre).
    exists r. split; [| split; [lia | done]].
    cbn [reasoning_rows]. destruct (m !! "reasoning_content"); [| done].
    by apply list_elem_of_further.
Qed.

Lemma reasoning_rows_increasing (i : nat) (conversation : list message)
    (j k : nat) (r1 r2 : reasoning_row) :
  reasoning_rows i conversation !! j = Some r1 →
  reasoning_rows i conversation !! k = Some r2 →
  (j < k)%nat → (turn r1 < turn r2)%nat.
Proof.
  revert i j k. induction conversation as [|m rest IH]; intros i j k Hj Hk Hlt; [done |].
  cbn [reasoning_rows] in Hj, Hk.
  destruct (m !! "reasoning_content") as [x|]; [| by eapply IH].
  destruct k as [|k]; [lia |]. cbn [lookup list_lookup] in Hk.
  destruct j as [|j].
  - injection Hj as <-. cbn [turn].
    apply list_elem_of_lookup_2 in Hk.
    pose proof (proj1 (Forall_forall _ _) (reasoning_rows_from (S i) rest) r2 Hk)
      as [Hle _].
    lia.
  - cbn [lookup list_lookup] in Hj. eapply IH; [done | done | lia].
Qed.

(** X21. [save_reasoning_separately] writes one row per message that has a
    [reasoning_content] key, in order: every row holds the index, role and
    reasoning of such a message and a preview of at most 103 characters,
    every such message has its row, and the indices strictly increase
    along the rows, so that no message has two.  It writes no file when no
    message has the key, and never touches another path. *)
Theorem save_reasoning_rows (conversation : list message) (output_path : string)
    (files : gmap string (list reasoning_row)) :
  let rows := reasoning_rows 0 conversation in
  Forall (row_of conversation) rows ∧
  (∀ i msg x, conversation !! i = Some msg → msg !! "reasoning_content" = Some x →
              ∃ r, r ∈ rows ∧ turn r = i ∧ reasoning r = x) ∧
  (∀ j k r1 r2, rows !! j = Some r1 → rows !! k = Some r2 →
                (j < k)%nat → (turn r1 < turn r2)%nat) ∧
  length rows =
    length (List.filter (λ msg : message, bool_decide (is_Some (msg !! "reasoning_content")))
              conversation) ∧
  (rows ≠ [] → save_reasoning_separately conversation output_path files !! output_path
               = Some rows) ∧
  ((∀ msg, msg ∈ conversation → msg !! "reasoning_content" = None) →
     save_reasoning_separately conversation output_path files = files) ∧
  (∀ path, path ≠ output_path →
     save_reasoning_separately conversation output_path files !! path = files !! path).
Proof.
  cbv zeta. split; [| split; [| split; [| split; [| split; [| split]]]]].
  - eapply Forall_impl; [apply (reasoning_rows_from 0 conversation) |].
    intros r (_ & msg & Hm & Hrest). exists msg. by rewrite Nat.sub_0_r in Hm.
  - intros i msg x Hi Hx. apply (reasoning_rows_complete 0 i conversation msg x Hi Hx).
  - apply reasoning_rows_increasing.
  - apply reasoning_rows_length.
  - unfold save_reasoning_separately.
    destruct (reasoning_rows 0 conversation); [done |]. intros _. apply lookup_insert_eq.
  - intros Hnone. unfold save_reasoning_separately.
    pose proof (reasoning_rows_from 0 conversation) as Hrows.
    destruct (reasoning_rows 0 conversation) as [|r rows]; [done |].
    apply Forall_cons in Hrows as [(_ & msg & Hm & Hr & _) _].
    apply list_elem_of_lookup_2 in Hm. by rewrite (Hnone msg Hm) in Hr.
  - intros path Hne. unfold save_reasoning_separately.
    destruct (reasoning_rows 0 conversation); [done |]. by apply lookup_insert_ne.
Qed.

(** X22. [extract_from_messages] returns one dictionary per message, in
    order, with the message's type as role and its content, and with a
    [reasoning_content] key exactly when the message's [additional_kwargs]
    hold a non-empty one: an empty reasoning is never recorded. *)
Theorem extract_from_messages_aligned (messages : list lc_message) :
  Forall2 (λ msg out,
             out !! "role" = Some (m_type msg) ∧
             out !! "content" = Some (m_content msg) ∧
             out !! "reasoning_content" = m_additional_kwargs msg ≫= truthy_reasoning ∧
             out !! "reasoning_content" ≠ Some "")
    messages (extract_from_messages messages).
Proof.
  unfold extract_from_messages. apply Forall2_fmap_r, Forall_Forall2_diag, Forall_forall.
  intros [ty ct kwargs] _. unfold compose.
  cbv beta iota zeta delta [m_type m_content m_additional_kwargs].
  assert (Hne : ∀ d, truthy_reasoning d ≠ Some "").
  { intros d Hd. by apply truthy_reasoning_spec in Hd as [_ Ht]. }
  assert (Hplain : ∀ o : option string,
            let out : message := {[ "role" := ty; "content" := ct ]} in
            o = None →
            out !! "role" = Some ty ∧ out !! "content" = Some ct ∧
            out !! "reasoning_content" = o ∧ out !! "reasoning_content" ≠ Some "").
  { intros o out ->. split; [reflexivity |]. split; [reflexivity |].
    split; [reflexivity |]. intros Heq. discriminate Heq. }
  destruct kwargs as [kw|].
  - case_bool_decide as Hkw.
    + subst kw. by apply Hplain.
    + change (Some kw ≫= truthy_reasoning) with (truthy_reasoning kw).
      destruct (truthy_reasoning kw) as [x|] eqn:Hx.
      * split; [reflexivity |]. split; [reflexivity |]. split; [reflexivity |].
        intros Heq. apply (Hne kw). rewrite Hx. exact Heq.
      * by apply Hplain.
  - by apply Hplain.
Qed.

Lemma run_loop_entries st (evs : list Cli.event) :
  Forall Cli.loop_entry (Cli.conversation_history st) →
  Forall Cli.loop_entry (Cli.conversation_history (Cli.run st evs)).
Proof.
  revert st. induction evs as [|ev evs IH]; intros st Hst; [done |].
  assert (Hstep : Forall Cli.loop_entry (Cli.conversation_history (Cli.step st ev).1)).
  { destruct ev as [|user_input agent]; [done |].
    destruct (PyStr.truthy user_input) eqn:Htr.
    2: { rewrite step_no_turn by (by left). by rewrite Htr. }
    destruct (Cli.is_quit user_input) eqn:Hq.
    { rewrite step_no_turn by (by right). by rewrite Htr. }
    assert (Hnew : ∀ r, Forall Cli.loop_entry
              (Cli.conversation_history st ++
               [Cli.user_entry user_input; Cli.assistant_entry r])).
    { intros r. apply Forall_app. split; [done |].
      apply Forall_cons. split; [left; by eexists |].
      apply Forall_cons. split; [right; by eexists | constructor]. }
    destruct agent as [r| | |r].
    - rewrite (step_turn st user_input r Htr Hq). cbv zeta.
      destruct (Cli.r_is_complete r || (12 <=? Cli.turn_count st + 1)%nat); apply Hnew.
    - unfold Cli.step. by rewrite Htr, Hq.
    - rewrite (step_no_message st user_input Htr Hq). cbn [fst Cli.conversation_history].
      apply Forall_app. split; [done |].
      apply Forall_cons. split; [left; by eexists | constructor].
    - rewrite (step_turn_raises st user_input r Htr Hq). cbv zeta.
      destruct (Cli.r_is_complete r || (12 <=? Cli.turn_count st + 1)%nat); apply Hnew. }
  simpl. destruct (Cli.step st ev) as [st' []];
    [by apply IH | done | done | done | by apply IH].
Qed.

(** X23. The rows saved from the history of any run of the conversation
    loop come from assistant entries only and never hold an empty
    reasoning. *)
Theorem loop_history_rows (evs : list Cli.event) :
  Forall (λ r, role r = Some "assistant" ∧ PyStr.truthy (reasoning r) = true)
    (reasoning_rows 0 (Cli.conversation_history (Cli.run Cli.initial evs))).
Proof.
  pose proof (run_loop_entries Cli.initial evs (Forall_nil_2 _)) as Hentries.
  eapply Forall_impl;
    [apply (reasoning_rows_from 0 (Cli.conversation_history (Cli.run Cli.initial evs))) |].
  intros row (_ & msg & Hm & Hr & Hrole & _).
  apply list_elem_of_lookup_2 in Hm.
  destruct (proj1 (Forall_forall _ _) Hentries msg Hm) as [[u ->] | [r ->]].
  - discriminate Hr.
  - rewrite Hrole. unfold Cli.assistant_entry in *.
    destruct (Cli.r_reasoning r) as [x|]; [| discriminate Hr].
    destruct (PyStr.truthy x) eqn:Hx; [| discriminate Hr].
    split; [reflexivity |]. by injection Hr as <-.
Qed.

End ExtractorFacts.

(** ** Concrete runs of the further properties *)

Section MoreRuns.
Import RedisCheckpointSaver Examples.

Lemma put_leaves_other_keys_witness :
  db_a !! "langgraph:checkpoint:b:latest" = None.
Proof.
  unfold db_a.
  rewrite (@put_leaves_other_keys RefPickle.ref_pickle default_saver config_a cp1 md1 ∅
             "langgraph:checkpoint:b:latest").
  - apply lookup_empty.
  - intros Heq. vm_compute in Heq. discriminate Heq.
  - intros Heq. vm_compute in Heq. discriminate Heq.
Defined.

Lemma put_keeps_history_witness :
  ∃ tup, get_tuple default_saver config_a_c1
           (put default_saver config_a cp2 md2 db_a).2 = Ok (Some tup) ∧
         t_checkpoint tup = cp1 ∧ t_metadata tup = md1.
Proof.
  refine (proj1 (@put_keeps_history RefPickle.ref_pickle default_saver config_a
                   config_a_c1 config_a cp1 md1 cp2 md2 ∅ "c1"
                   (RefPickle.pickled (put_data config_a cp1 md1))
                   (RefPickle.pickled (put_data config_a cp2 md2))
                   eq_refl eq_refl eq_refl eq_refl _ _
                   eq_refl eq_refl eq_refl eq_refl eq_refl eq_refl));
    intros Heq; discriminate Heq.
Defined.

Lemma put_without_id_witness :
  checkpoint_key default_saver config_a cp_no_id = latest_key default_saver config_a.
Proof.
  exact (proj1 (@put_without_id RefPickle.ref_pickle default_saver config_a cp_no_id
                  md1 ∅ eq_refl)).
Defined.

Lemma put_other_session_keeps_get_witness :
  get_tuple default_saver (config_for "a")
    (put default_saver (config_for "b") cp1 md1 ∅).2 =
  get_tuple default_saver (config_for "a") ∅.
Proof.
  apply (@put_other_session_keeps_get RefPickle.ref_pickle default_saver
           (config_for "a") (config_for "b") cp1 md1 ∅); [reflexivity | reflexivity |].
  intros Heq. discriminate Heq.
Defined.

Lemma make_key_injective_witness :
  "a" = "a" ∧ "" = "" ∧ last_part (Some "c1") = last_part (Some "c1").
Proof.
  apply (make_key_injective default_saver "a" "a" "" "" (Some "c1") (Some "c1"));
    reflexivity.
Defined.

Lemma put_then_list_witness :
  ∃ tuples tup,
    list_ default_saver config_a None
      (put default_saver config_a cp1 md1 (replay default_saver [] ∅)).2 = Ok tuples ∧
    tup ∈ tuples ∧ t_checkpoint tup = cp1 ∧ t_metadata tup = md1.
Proof.
  apply (@put_then_list RefPickle.ref_pickle default_saver [] config_a config_a cp1 md1
           (RefPickle.pickled (put_data config_a cp1 md1)));
    try reflexivity.
  left. reflexivity.
Defined.

Lemma missing_thread_id_is_default_witness :
  get_thread_id no_thread = "default" ∧
  (∃ tup,
     get_tuple default_saver no_configurable
       (put default_saver no_thread cp1 md1 ∅).2 = Ok (Some tup) ∧
     t_checkpoint tup = cp1) ∧
  (∃ tuples tup,
     list_ default_saver no_configurable None
       (put default_saver no_thread cp1 md1 ∅).2 = Ok tuples ∧
     tup ∈ tuples ∧ t_checkpoint tup = cp1 ∧
     configurable (t_config tup) ≫= thread_id = Some "default").
Proof.
  destruct (@missing_thread_id_is_default RefPickle.ref_pickle default_saver no_thread no_configurable
              cp1 md1 ∅ (RefPickle.pickled (put_data no_thread cp1 md1))
              eq_refl eq_refl eq_refl eq_refl eq_refl)
    as (Hd & _ & _ & _ & (tup & Hg & Hc & _) & Hlist).
  split; [exact Hd |]. split; [exists tup; split; [exact Hg | exact Hc] |].
  destruct (Hlist [] eq_refl eq_refl eq_refl) as (tuples & tup' & Hl & Hin & Hc' & _ & Ht').
  exists tuples, tup'. split; [exact Hl |]. split; [exact Hin |].
  split; [exact Hc' | exact Ht'].
Defined.


Lemma analysis_monotone_witness :
  (ConversationAnalyzerTool.turn_count
     (ConversationAnalyzerTool._run [user_says "a book"]) ≤
   ConversationAnalyzerTool.turn_count
     (ConversationAnalyzerTool._run ([user_says "a book"] ++ [user_says "its prose"])))%nat.
Proof.
  refine (proj1 (analysis_monotone [user_says "a book"] [user_says "its prose"] _)).
  discriminate.
Defined.

Lemma non_user_messages_ignored_witness :
  ConversationAnalyzerTool._run ([user_says "a book"] ++ assistant_says "read more" :: []) =
  ConversationAnalyzerTool._run ([user_says "a book"] ++ []).
Proof.
  apply (non_user_messages_ignored [user_says "a book"] [] (assistant_says "read more"));
    [reflexivity | discriminate].
Defined.

Lemma analysis_ignores_case_witness :
  ConversationAnalyzerTool._run [user_says "A BOOK"] =
  ConversationAnalyzerTool._run [user_says "a book"].
Proof.
  apply (analysis_ignores_case [user_says "A BOOK"] [user_says "a book"]).
  constructor; [split; reflexivity | constructor].
Defined.

Lemma completes_only_at_ceiling_witness :
  (12 ≤ Cli.turn_count (Cli.run Cli.initial twelve_turns))%nat ∧
  (Forall Cli.block_finishes twelve_turns →
   Cli.turn_count (Cli.run Cli.initial twelve_turns) = 12%nat).
Proof.
  apply (completes_only_at_ceiling twelve_turns).
  - unfold twelve_turns. simpl. repeat (constructor; [reflexivity |]). constructor.
  - reflexivity.
Defined.

End MoreRuns.
